(** * Relax: reverse-mode automatic differentiation and operator struct-info

    A shallow embedding of

    - the [Gradient] pass as documented in [AD_Draft.md] (the pseudo code of
      sections 2 and 3: [AD-Version 1], [Addition], [ReplaceExprByVar],
      [BuildEmptyNestedTupleExpr], [UpdateExprMap], [AdditionInTuple]);
    - the gradient operators of [grad.cc] ([nll_loss_backward] and friends);
    - the unary operator registration of [unary.cc] and the struct-info
      inference template [InferStructInfoUnary] of [op_common.h].

    Relax expressions are immutable trees; the pass state (three maps, the
    list of emitted bindings and the fresh-name counter) is threaded
    explicitly through a state-and-error monad. *)

From Stdlib Require Import ZArith Lia.
From stdpp Require Import gmap strings list fin_maps pretty.

Set Warnings "-register-all".
Local Open Scope string_scope.
Local Open Scope list_scope.

(** ** Results of fallible code *)

(** The error kinds of the pass (section 7 of the design), together with the
    two ways library code aborts: [ReportFatal] of a diagnostic, and an
    out-of-range index into an [Array]. *)
Inductive ErrorKind :=
| NotAFunction
| UnsupportedBody
| NonScalarReturn
| BadRequireGrads
| UnknownGradient
| GradientShapeMismatch
| InternalInvariantViolation
| DiagnosticError (msg : string)
| IndexOutOfRange.

Inductive Result (A : Type) :=
| OK (a : A)
| Fatal (e : ErrorKind).
Arguments OK {A} a.
Arguments Fatal {A} e.

Definition is_OK {A} (r : Result A) : bool :=
  match r with OK _ => true | Fatal _ => false end.

(** ** The IR data model *)

(** [runtime::DataType]: a type code, a bit width and a lane count. *)
Inductive DataTypeCode := kInt | kUInt | kFloat | kHandle | kBFloat.

Record DataType := mkDataType { code : DataTypeCode; bits : Z; lanes : Z }.

Definition DataType_Float (b : Z) : DataType := mkDataType kFloat b 1.
Definition DataType_Int (b : Z) : DataType := mkDataType kInt b 1.
(** [DataType::Void()] is [Handle(0, 0)]: the unknown dtype. *)
Definition DataType_Void : DataType := mkDataType kHandle 0 0.

Definition is_float (d : DataType) : bool :=
  match code d with kFloat => true | _ => false end.

Definition is_void (d : DataType) : bool :=
  match code d with
  | kHandle => (bits d =? 0)%Z && (lanes d =? 0)%Z
  | _ => false
  end.

(** [TensorStructInfoNode]: optional static shape, dtype, rank. *)
Record TensorStructInfo := mkTensorStructInfo {
  shape : option (list Z);
  dtype : DataType;
  ndim : Z
}.

Definition IsUnknownDtype (t : TensorStructInfo) : bool := is_void (dtype t).

Inductive StructInfo :=
| ObjectStructInfo
| TensorSI (t : TensorStructInfo)
| TupleStructInfo (fields : list StructInfo).

Record Var := mkVar { vid : string; struct_info_ : StructInfo }.

(** Attribute nodes used by the operators of this development. *)
Inductive Attrs :=
| NoAttrs
| InitAttrs (dtype : DataType)
| NLLLossAttrs (reduction : string) (ignore_index : Z)
| Pool2DAttrs (pool_size strides padding dilation : list Z)
              (ceil_mode : bool) (layout out_layout : string)
| TakeAttrs (axis : option Z).

(** Expressions.  An operator is identified by its registered name. *)
Inductive Expr :=
| EVar (v : Var)
| Tuple (fields : list Expr)
| TupleGetItem (tuple : Expr) (index : nat)
| Call (op : string) (args : list Expr) (attrs : Attrs)
| ShapeExpr (values : list Z)
| Constant (data : Z).

Definition Binding : Type := Var * Expr.

(** A function whose body is one dataflow block followed by its result. *)
Record Function := mkFunction {
  params : list Var;
  body : list Binding;
  ret : Expr
}.

(** *** Induction principles for the nested types *)

Section StructInfo_nested_ind.
Variable P : StructInfo → Prop.
Hypothesis HObject : P ObjectStructInfo.
Hypothesis HTensor : ∀ t, P (TensorSI t).
Hypothesis HTuple : ∀ fields, Forall P fields → P (TupleStructInfo fields).

Fixpoint StructInfo_nested_ind (s : StructInfo) : P s :=
  match s with
  | ObjectStructInfo => HObject
  | TensorSI t => HTensor t
  | TupleStructInfo fields =>
      HTuple fields
        ((fix all (l : list StructInfo) : Forall P l :=
            match l with
            | [] => Forall_nil_2 P
            | x :: l' => Forall_cons_2 P x l' (StructInfo_nested_ind x) (all l')
            end) fields)
  end.
End StructInfo_nested_ind.

Section Expr_nested_ind.
Variable P : Expr → Prop.
Hypothesis HVar : ∀ v, P (EVar v).
Hypothesis HTuple : ∀ fields, Forall P fields → P (Tuple fields).
Hypothesis HGetItem : ∀ t i, P t → P (TupleGetItem t i).
Hypothesis HCall : ∀ op args attrs, Forall P args → P (Call op args attrs).
Hypothesis HShape : ∀ values, P (ShapeExpr values).
Hypothesis HConst : ∀ data, P (Constant data).

Fixpoint Expr_nested_ind (e : Expr) : P e :=
  let all := fix all (l : list Expr) : Forall P l :=
    match l with
    | [] => Forall_nil_2 P
    | x :: l' => Forall_cons_2 P x l' (Expr_nested_ind x) (all l')
    end in
  match e with
  | EVar v => HVar v
  | Tuple fields => HTuple fields (all fields)
  | TupleGetItem t i => HGetItem t i (Expr_nested_ind t)
  | Call op args attrs => HCall op args attrs (all args)
  | ShapeExpr values => HShape values
  | Constant data => HConst data
  end.
End Expr_nested_ind.

(** *** Decidable equality (the key comparison of the maps) *)

Global Instance DataTypeCode_eq_dec : EqDecision DataTypeCode.
Proof. solve_decision. Defined.
Global Instance DataType_eq_dec : EqDecision DataType.
Proof. solve_decision. Defined.
Global Instance TensorStructInfo_eq_dec : EqDecision TensorStructInfo.
Proof. solve_decision. Defined.
Global Instance Attrs_eq_dec : EqDecision Attrs.
Proof. solve_decision. Defined.

Fixpoint StructInfo_eqb (a b : StructInfo) : bool :=
  match a, b with
  | ObjectStructInfo, ObjectStructInfo => true
  | TensorSI t, TensorSI u => bool_decide (t = u)
  | TupleStructInfo fs, TupleStructInfo gs =>
      (fix go (l1 l2 : list StructInfo) : bool :=
         match l1, l2 with
         | [], [] => true
         | x :: l1', y :: l2' => StructInfo_eqb x y && go l1' l2'
         | _, _ => false
         end) fs gs
  | _, _ => false
  end.

Definition Var_eqb (v w : Var) : bool :=
  bool_decide (vid v = vid w) && StructInfo_eqb (struct_info_ v) (struct_info_ w).

Fixpoint Expr_eqb (a b : Expr) : bool :=
  let go := fix go (l1 l2 : list Expr) : bool :=
    match l1, l2 with
    | [], [] => true
    | x :: l1', y :: l2' => Expr_eqb x y && go l1' l2'
    | _, _ => false
    end in
  match a, b with
  | EVar v, EVar w => Var_eqb v w
  | Tuple fs, Tuple gs => go fs gs
  | TupleGetItem t i, TupleGetItem u j => Expr_eqb t u && bool_decide (i = j)
  | Call op args attrs, Call op' args' attrs' =>
      bool_decide (op = op') && go args args' && bool_decide (attrs = attrs')
  | ShapeExpr vs, ShapeExpr ws => bool_decide (vs = ws)
  | Constant c, Constant d => bool_decide (c = d)
  | _, _ => false
  end.

(** ** Sequencing of fallible code *)

Definition bind {A B} (m : Result A) (k : A → Result B) : Result B :=
  match m with
  | OK a => k a
  | Fatal e => Fatal e
  end.

Notation "'do' x <- m ; k" := (bind m (fun x => k))
  (at level 10, x name, m at level 100, k at level 200).

(** [arr[i]] on an [Array]: raises when [i] is out of range. *)
Definition at_index {A} (arr : list A) (i : nat) : Result A :=
  match arr !! i with
  | Some a => OK a
  | None => Fatal IndexOutOfRange
  end.

(** The helpers of the pass only fail on a violated assertion or on an index
    out of range. *)
Definition benign {A} (r : Result A) : Prop :=
  ∀ e, r = Fatal e → e = InternalInvariantViolation ∨ e = IndexOutOfRange.

(** ** The Gradient pass of AD_Draft.md *)

Module AD.

(** The state of one run of the pass: the two maps of section "Expr and Var"
    (keyed by the forward variable, identified by its [vid]), the map
    [adjoint_expr_to_var_] of section "Addition" (keyed by expression, the most
    recent entry first), the bindings emitted so far, in emission order, and
    the number of anonymous variables created by [Var()]. *)
Record State := mkState {
  adjoint_var_map_ : gmap string Var;
  adjoint_expr_map_ : gmap string Expr;
  adjoint_expr_to_var_ : list (Expr * Var);
  emitted : list Binding;
  fresh : nat
}.

Definition init_state : State := mkState ∅ ∅ [] [] 0.

Definition set_adjoint_var (k : Var) (a : Var) (st : State) : State :=
  mkState (<[vid k := a]> (adjoint_var_map_ st)) (adjoint_expr_map_ st)
          (adjoint_expr_to_var_ st) (emitted st) (fresh st).

Definition set_adjoint_expr (k : Var) (e : Expr) (st : State) : State :=
  mkState (adjoint_var_map_ st) (<[vid k := e]> (adjoint_expr_map_ st))
          (adjoint_expr_to_var_ st) (emitted st) (fresh st).

Definition set_expr_to_var (e : Expr) (v : Var) (st : State) : State :=
  mkState (adjoint_var_map_ st) (adjoint_expr_map_ st)
          ((e, v) :: adjoint_expr_to_var_ st) (emitted st) (fresh st).

(** [BindAndEmit] / [emit_and_bind]: append one binding to the output block. *)
Definition BindAndEmit (v : Var) (e : Expr) (st : State) : State :=
  mkState (adjoint_var_map_ st) (adjoint_expr_map_ st)
          (adjoint_expr_to_var_ st) (emitted st ++ [(v, e)]) (fresh st).

(** [Var()] for a named adjoint: [<original>_adjoint], with the structure of
    the original (section 1, E.g. 1.1). *)
Definition CreateAdjointVar (v : Var) : Var :=
  mkVar (vid v +:+ "_adjoint") (struct_info_ v).

(** [Var()] for an anonymous intermediate; its struct info is left to the
    block builder. *)
Definition fresh_var (st : State) : Var * State :=
  (mkVar ("grad_" +:+ pretty (fresh st)) ObjectStructInfo,
   mkState (adjoint_var_map_ st) (adjoint_expr_map_ st)
           (adjoint_expr_to_var_ st) (emitted st) (S (fresh st))).

(** Lookup in [adjoint_expr_to_var_]. *)
Fixpoint expr_to_var_lookup (memo : list (Expr * Var)) (e : Expr) : option Var :=
  match memo with
  | [] => None
  | (k, v) :: memo' => if Expr_eqb k e then Some v else expr_to_var_lookup memo' e
  end.

(** [[
def ReplaceExprByVar(expr: Expr):
    if expr in adjoint_expr_to_var_:
        return adjoint_expr_to_var_[expr]
    return expr # can not replace
]] *)
Definition ReplaceExprByVar (memo : list (Expr * Var)) (expr : Expr) : Expr :=
  match expr_to_var_lookup memo expr with
  | Some v => EVar v
  | None => expr
  end.

(** [[
def Addition(base: Expr, increment: Expr):
    if increment is Tuple:
        ret = []
        assert base is Tuple and len(base) == len(increment)
        for i in len(base):
            ret.append(Addition(base[i], increment[i]))
        return Tuple(ret)
    else:
        return Call("relax.add", base, ReplaceExprByVar(increment))
]] *)
Fixpoint Addition (memo : list (Expr * Var)) (base increment : Expr)
  {struct increment} : Result Expr :=
  match increment with
  | Tuple incs =>
      match base with
      | Tuple bases =>
          if bool_decide (length bases = length incs) then
            do ret <- (fix go (incs : list Expr) (bases : list Expr) {struct incs}
                         : Result (list Expr) :=
                         match incs, bases with
                         | i :: incs', b :: bases' =>
                             do r <- Addition memo b i;
                             do rs <- go incs' bases';
                             OK (r :: rs)
                         | _, _ => OK []
                         end) incs bases;
            OK (Tuple ret)
          else Fatal InternalInvariantViolation
      | _ => Fatal InternalInvariantViolation
      end
  | _ => OK (Call "relax.add" [base; ReplaceExprByVar memo increment] NoAttrs)
  end.

(** The loop of [Addition] over the slots of two tuples, by itself. *)
Definition Addition_loop (memo : list (Expr * Var))
  : list Expr → list Expr → Result (list Expr) :=
  fix go (incs bases : list Expr) {struct incs} : Result (list Expr) :=
    match incs, bases with
    | i :: incs', b :: bases' =>
        do r <- Addition memo b i;
        do rs <- go incs' bases';
        OK (r :: rs)
    | _, _ => OK []
    end.

(** [[
def BuildEmptyNestedTupleExpr(shape: Tuple, type: TupleType):
    ret = []
    for i in range(len(shape)):
        if shape[i] is a Tuple:
            ret.append(BuildEmptyNestedTupleExpr(shape[i], type[i]))
        else:
            assert shape[i] is ShapeExpr
            ret.push_back(Call("relax.zeros", shape[i], type[i]))
    return Tuple(ret)
]]
    [shape[i]] and [type[i]] are the two halves of the struct info of slot
    [i]; [BuildEmptySlot] is the body of the loop for one slot. *)
Fixpoint BuildEmptySlot (s : StructInfo) : Result Expr :=
  match s with
  | TupleStructInfo fields =>
      do ret <- (fix go (l : list StructInfo) : Result (list Expr) :=
                   match l with
                   | [] => OK []
                   | f :: l' =>
                       do e <- BuildEmptySlot f;
                       do es <- go l';
                       OK (e :: es)
                   end) fields;
      OK (Tuple ret)
  | TensorSI t =>
      match shape t with
      | Some values => OK (Call "relax.zeros" [ShapeExpr values] (InitAttrs (dtype t)))
      | None => Fatal InternalInvariantViolation
      end
  | ObjectStructInfo => Fatal InternalInvariantViolation
  end.

(** The loop of [BuildEmptyNestedTupleExpr] over the slots, by itself. *)
Fixpoint BuildEmptySlots (l : list StructInfo) : Result (list Expr) :=
  match l with
  | [] => OK []
  | f :: l' =>
      do e <- BuildEmptySlot f;
      do es <- BuildEmptySlots l';
      OK (e :: es)
  end.

Definition BuildEmptyNestedTupleExpr (s : StructInfo) : Result Expr :=
  match s with
  | TupleStructInfo _ => BuildEmptySlot s
  | _ => Fatal InternalInvariantViolation
  end.

(** The structural zero of a struct info: [zeros(shape, dtype)] for a tensor
    of known shape, a tuple of structural zeros for a tuple. *)
Inductive structural_zero : StructInfo → Expr → Prop :=
| zero_tensor (t : TensorStructInfo) (values : list Z) :
    shape t = Some values →
    structural_zero (TensorSI t)
      (Call "relax.zeros" [ShapeExpr values] (InitAttrs (dtype t)))
| zero_tuple (fields : list StructInfo) (es : list Expr) :
    Forall2 structural_zero fields es →
    structural_zero (TupleStructInfo fields) (Tuple es).

(** [[
def AdditionInTuple(tuple: Tuple, pos: int, increment: Expr):
    ret = []
    for i in range(len(tuple)):
        if i == index:
            ret.append(Addition(tuple[i], increment)) # add in this position!
        else:
            ret.append(tuple[i]) # no change
    return Tuple(ret)
]] *)
Fixpoint AdditionInTuple_loop (memo : list (Expr * Var)) (i : nat)
  (fields : list Expr) (pos : nat) (increment : Expr) : Result (list Expr) :=
  match fields with
  | [] => OK []
  | x :: fields' =>
      do r <- (if bool_decide (i = pos) then Addition memo x increment else OK x);
      do rs <- AdditionInTuple_loop memo (S i) fields' pos increment;
      OK (r :: rs)
  end.

Definition AdditionInTuple (memo : list (Expr * Var)) (tuple : Expr) (pos : nat)
  (increment : Expr) : Result Expr :=
  match tuple with
  | Tuple fields =>
      do ret <- AdditionInTuple_loop memo 0 fields pos increment;
      OK (Tuple ret)
  | _ => Fatal InternalInvariantViolation
  end.

(** [adjoint_expr_map_[v] = Addition(adjoint_expr_map_[v], increment)], where
    "if it is the first time we update to v, [+=] becomes [=]"
    (section "Expr and Var"). *)
Definition AddToAdjoint (v : Var) (increment : Expr) (st : State) : Result State :=
  match adjoint_expr_map_ st !! vid v with
  | None => OK (set_adjoint_expr v increment st)
  | Some old =>
      do updated <- Addition (adjoint_expr_to_var_ st) old increment;
      OK (set_adjoint_expr v updated st)
  end.

(** The naming step of [UpdateExprMap]:
[[
        if increment in adjoint_expr_to_var_:
            increment_var = adjoint_expr_to_var_[increment]
        else:
            increment_var = Var()
            BindAndEmit(increment_var, increment)
            adjoint_expr_to_var_[increment] = increment_var
]] *)
Definition NameIncrement (increment : Expr) (st : State) : Var * State :=
  match expr_to_var_lookup (adjoint_expr_to_var_ st) increment with
  | Some increment_var => (increment_var, st)
  | None =>
      let '(increment_var, st1) := fresh_var st in
      (increment_var, set_expr_to_var increment increment_var
                        (BindAndEmit increment_var increment st1))
  end.

(** [[
def UpdateExprMap(base: Expr, increment: Expr):
    if base is Var:
        ... (naming step) ...
        adjoint_expr_map_[base] = Addition(adjoint_expr_map_[v], increment_var)
    else if base is Tuple:
        for i in range(len(base)):
            UpdateExprMap(base[i], increment[i])
]]
    [increment[i]] reads slot [i] of a Tuple expression. *)
Fixpoint UpdateExprMap (base increment : Expr) (st : State) {struct base}
  : Result State :=
  match base with
  | EVar v =>
      let '(increment_var, st1) := NameIncrement increment st in
      AddToAdjoint v (EVar increment_var) st1
  | Tuple bases =>
      (fix go (bases : list Expr) (i : nat) (st : State) {struct bases}
         : Result State :=
         match bases with
         | [] => OK st
         | b :: bases' =>
             do inc_i <- match increment with
                         | Tuple incs => at_index incs i
                         | _ => Fatal InternalInvariantViolation
                         end;
             do st1 <- UpdateExprMap b inc_i st;
             go bases' (S i) st1
         end) bases 0%nat st
  | _ => OK st
  end.

(** The loop of the Tuple case of [UpdateExprMap], by itself. *)
Fixpoint UpdateExprMap_loop (increment : Expr) (bases : list Expr) (i : nat)
  (st : State) : Result State :=
  match bases with
  | [] => OK st
  | b :: bases' =>
      do inc_i <- match increment with
                  | Tuple incs => at_index incs i
                  | _ => Fatal InternalInvariantViolation
                  end;
      do st1 <- UpdateExprMap b inc_i st;
      UpdateExprMap_loop increment bases' (S i) st1
  end.

(** The registry of [FPrimalGradient] attributes: for an operator, a function
    of the original call and the adjoint variable of its result that returns
    one partial per argument.  The pass only reads it. *)
Definition FPrimalGradient : Type := Expr → Expr → list Expr.
Definition GradientMap : Type := string → option FPrimalGradient.

(** [ones((), dtype)], the adjoint of the target. *)
Definition target_seed (target : Var) : Result Expr :=
  match struct_info_ target with
  | TensorSI t => OK (Call "relax.ones" [ShapeExpr []] (InitAttrs (dtype t)))
  | _ => Fatal NonScalarReturn
  end.

Section Walker.
Variable gradient_map : GradientMap.
Variable target : Var.

(** [for i in len(call.args): ... partials[i] ...], with the update of
    each argument done by [UpdateExprMap] (section "UpdateExprMap and
    Addition"). *)
Fixpoint update_args (args : list Expr) (partials : list Expr) (i : nat)
  (st : State) : Result State :=
  match args with
  | [] => OK st
  | arg :: args' =>
      do partial <- at_index partials i;
      do st1 <- UpdateExprMap arg partial st;
      update_args args' partials (S i) st1
  end.

(** The propagation step for the value of a relevant binding, after its
    adjoint variable has been bound. *)
Definition propagate (v : Var) (value : Expr) (adjoint_var : Var)
  (adjoint_expr : Expr) (st : State) : Result State :=
  match value with
  | Call op args attrs =>
      match gradient_map op with
      | None => Fatal UnknownGradient
      | Some gradient =>
          let partials := gradient value (EVar adjoint_var) in
          update_args args partials 0 st
      end
  | EVar b =>
      (* a = b:
         adjoint_expr_map_[b] = Addition(adjoint_expr_map_[b], adjoint_expr_map_[a]) *)
      AddToAdjoint b adjoint_expr st
  | Tuple fields =>
      (* assert adjoint_expr is Tuple; assert len(binding->value) == len(adjoint_expr) *)
      match adjoint_expr with
      | Tuple incs =>
          if bool_decide (length fields = length incs)
          then UpdateExprMap value adjoint_expr st
          else Fatal InternalInvariantViolation
      | _ => Fatal InternalInvariantViolation
      end
  | TupleGetItem updated_tuple index =>
      match updated_tuple with
      | EVar tuple_var =>
          do st1 <- match adjoint_expr_map_ st !! vid tuple_var with
                    | Some _ => OK st
                    | None =>
                        do skeleton <- BuildEmptyNestedTupleExpr (struct_info_ tuple_var);
                        OK (set_adjoint_expr tuple_var skeleton st)
                    end;
          do old <- match adjoint_expr_map_ st1 !! vid tuple_var with
                    | Some old => OK old
                    | None => Fatal InternalInvariantViolation
                    end;
          do updated <- AdditionInTuple (adjoint_expr_to_var_ st1) old index adjoint_expr;
          OK (set_adjoint_expr tuple_var updated st1)
      | _ => Fatal InternalInvariantViolation
      end
  | ShapeExpr _ | Constant _ => Fatal UnsupportedBody
  end.

(** One iteration of the loop of [AD-Version 1]:
[[
  adjoint_var = Var()
  adjoint_var_map_[binding->var] = adjoint_var
  if binding->var not in adjoint_expr_map_: # irrelevant parts or target
      if binding->var == target:
          adjoint_expr_map_[binding->var] = 1 # target
      else:
          continue # irrelevant parts
  adjoint_expr = adjoint_expr_map_[binding->var]
  emit_and_bind(adjoint_var, adjoint_expr) # emit and bind
]]
    followed by the propagation for the value.  The emitted pair is recorded
    in [adjoint_expr_to_var_], the "map from adjoint_expr to adjoint_var"
    that [ReplaceExprByVar] consults. *)
Definition VisitBinding (binding : Binding) (st : State) : Result State :=
  let '(v, value) := binding in
  let adjoint_var := CreateAdjointVar v in
  let st1 := set_adjoint_var v adjoint_var st in
  do st2 <- match adjoint_expr_map_ st1 !! vid v with
            | Some _ => OK (Some st1)
            | None =>
                if bool_decide (vid v = vid target) then
                  do one <- target_seed target;
                  OK (Some (set_adjoint_expr v one st1))
                else OK None
            end;
  match st2 with
  | None => OK st1
  | Some st2 =>
      do adjoint_expr <- match adjoint_expr_map_ st2 !! vid v with
                         | Some e => OK e
                         | None => Fatal InternalInvariantViolation
                         end;
      let st3 := set_expr_to_var adjoint_expr adjoint_var
                   (BindAndEmit adjoint_var adjoint_expr st2) in
      propagate v value adjoint_var adjoint_expr st3
  end.

(** The state after [emit_and_bind(adjoint_var, adjoint_expr)] for the
binding of [v], with both maps updated. *)
Definition emit_adjoint (v : Var) (adjoint_expr : Expr) (st : State) : State :=
  set_expr_to_var adjoint_expr (CreateAdjointVar v)
    (BindAndEmit (CreateAdjointVar v) adjoint_expr
       (set_adjoint_var v (CreateAdjointVar v) st)).

(** [for binding in reverse_order: ...] over an already reversed list. *)
Fixpoint walk (bindings : list Binding) (st : State) : Result State :=
  match bindings with
  | [] => OK st
  | b :: bindings' =>
      do st1 <- VisitBinding b st;
      walk bindings' st1
  end.

Definition reverse_walk (f : Function) : Result State :=
  walk (rev (body f)) init_state.
End Walker.

(** *** The driver *)

(** An [IRModule]: the functions by the name of their [GlobalVar]. *)
Abbreviation IRModule := (gmap string Function).

Definition is_scalar_float (s : StructInfo) : bool :=
  match s with
  | TensorSI t => is_float (dtype t) && bool_decide (shape t = Some [])
  | _ => false
  end.

Fixpoint has_float_leaf (s : StructInfo) : bool :=
  match s with
  | TensorSI t => is_float (dtype t)
  | TupleStructInfo fields =>
      (fix any (l : list StructInfo) : bool :=
         match l with
         | [] => false
         | f :: l' => has_float_leaf f || any l'
         end) fields
  | ObjectStructInfo => false
  end.

Definition is_param (f : Function) (v : Var) : bool :=
  existsb (Var_eqb v) (params f).

(** Modelled from the spec: the zero skeleton of section 4.4, a call to
    [zeros] for a tensor and a tuple of skeletons for a tuple; this is
    [BuildEmptySlot] of the draft. *)
Definition zero_skeleton (s : StructInfo) : Result Expr := BuildEmptySlot s.

(** Modelled from the spec: step (d) of section 4.1 for one requested
    parameter ("we just need to bind them with adjoint_var and emit them");
    a parameter that received no adjoint gets the structural zero. *)
Definition emit_param_adjoint (p : Var) (st : State) : Result (Var * State) :=
  let adjoint_var := CreateAdjointVar p in
  do e <- match adjoint_expr_map_ st !! vid p with
          | Some e => OK e
          | None => zero_skeleton (struct_info_ p)
          end;
  OK (adjoint_var, BindAndEmit adjoint_var e (set_adjoint_var p adjoint_var st)).

Fixpoint emit_param_adjoints (ps : list Var) (st : State)
  : Result (list Var * State) :=
  match ps with
  | [] => OK ([], st)
  | p :: ps' =>
      do r <- emit_param_adjoint p st;
      do rs <- emit_param_adjoints ps' r.2;
      OK (r.1 :: rs.1, rs.2)
  end.

(** Modelled from the spec: the preconditions of section 4.1, each with its
    error kind of section 7; the result is the target, the variable returned
    by the function.  A [Function] has one straight-line block by
    construction, so that [UnsupportedBody] is left to the walk, which raises
    it on a value it cannot cast. *)
Definition check_preconditions (f : Function) (require_grads : option (list Var))
  : Result Var :=
  match ret f with
  | EVar target =>
      if negb (is_scalar_float (struct_info_ target)) then Fatal NonScalarReturn
      else if negb (forallb (λ v, is_param f v && has_float_leaf (struct_info_ v))
                      (default [] require_grads))
      then Fatal BadRequireGrads
      else OK target
  | _ => Fatal NonScalarReturn
  end.

(** Modelled from the spec: the entry point [differentiate] of section 4.1
    ([Gradient(global_var, require_grads)] of the draft), whose code
    (gradient.cc) is not among the sources.  It checks the preconditions,
    keeps the forward bindings, runs the reverse walk of the draft, binds the
    adjoints of the requested parameters and adds the function
    [<original>_adjoint] to the module. *)
Definition differentiate (gradient_map : GradientMap) (mod_ : IRModule)
  (global_var : string) (require_grads : option (list Var)) : Result IRModule :=
  match mod_ !! global_var with
  | None => Fatal NotAFunction
  | Some f =>
      do target <- check_preconditions f require_grads;
      do st <- reverse_walk gradient_map target f;
      do r <- emit_param_adjoints (default (params f) require_grads) st;
      let new_func :=
        mkFunction (params f) (body f ++ emitted r.2)
          (Tuple [ret f; Tuple (map EVar r.1)]) in
      OK (<[global_var +:+ "_adjoint" := new_func]> mod_)
  end.



(** *** The gradient rules shown in the draft *)

Definition call_args (call : Expr) : list Expr :=
  match call with
  | Call _ args _ => args
  | _ => []
  end.

(** [e.shape] of a tensor variable. *)
Definition shape_of (e : Expr) : Expr :=
  match e with
  | EVar v =>
      match struct_info_ v with
      | TensorSI t => ShapeExpr (default [] (shape t))
      | _ => ShapeExpr []
      end
  | _ => ShapeExpr []
  end.

(** [[
@register_gradient("relax.sum")
def sum_grad(orig: Call, grad: Var):
    return [broadcast_to(grad, orig.args[0].shape)]
]] *)
Definition sum_grad : FPrimalGradient := λ orig grad,
  match call_args orig with
  | a0 :: _ => [Call "relax.broadcast_to" [grad; shape_of a0] NoAttrs]
  | [] => []
  end.

(** [[
@register_gradient("relax.add")
def add_grad(orig: Call, grad: Var):
    return [collapse_sum_to(grad, orig.args[0].shape),
            collapse_sum_to(grad, orig.args[1].shape)]
]] *)
Definition add_grad : FPrimalGradient := λ orig grad,
  match call_args orig with
  | a0 :: a1 :: _ =>
      [Call "relax.collapse_sum_to" [grad; shape_of a0] NoAttrs;
       Call "relax.collapse_sum_to" [grad; shape_of a1] NoAttrs]
  | _ => []
  end.

Definition draft_gradient_map : GradientMap := λ op,
  if bool_decide (op = "relax.sum") then Some sum_grad
  else if bool_decide (op = "relax.add") then Some add_grad
  else None.

(** *** Measures on expressions and bodies *)


(** Number of calls to [relax.add] in an expression. *)
Fixpoint count_add (e : Expr) : nat :=
  let all := fix all (l : list Expr) : nat :=
    match l with
    | [] => 0
    | x :: l' => count_add x + all l'
    end in
  match e with
  | Call op args _ => (if bool_decide (op = "relax.add") then 1 else 0) + all args
  | Tuple fields => all fields
  | TupleGetItem t _ => count_add t
  | _ => 0
  end%nat.

(** Number of references to the variable named [x] in an expression. *)
Fixpoint occurrences (x : string) (e : Expr) : nat :=
  let all := fix all (l : list Expr) : nat :=
    match l with
    | [] => 0
    | y :: l' => occurrences x y + all l'
    end in
  match e with
  | EVar v => if bool_decide (vid v = x) then 1 else 0
  | Call _ args _ => all args
  | Tuple fields => all fields
  | TupleGetItem t _ => occurrences x t
  | _ => 0
  end%nat.






(** The test of the loop for a relevant binding, on the state before the
    visit. *)
Definition is_relevant (target : Var) (st : State) (v : Var) : bool :=
  bool_decide (is_Some (adjoint_expr_map_ st !! vid v))
  || bool_decide (vid v = vid target).

(** The number of uses of [x] by the bindings that are relevant when the walk
    from [st] visits them. *)
Fixpoint relevant_uses (gradient_map : GradientMap) (target : Var) (x : string)
  (bindings : list Binding) (st : State) : nat :=
  match bindings with
  | [] => 0
  | b :: bindings' =>
      (if is_relevant target st b.1 then occurrences x b.2 else 0) +
      match VisitBinding gradient_map target b st with
      | OK st1 => relevant_uses gradient_map target x bindings' st1
      | Fatal _ => 0
      end
  end%nat.




(** A call on variables to an operator whose registered rule returns at
    least one partial per argument. *)
Definition call_with_rule (gradient_map : GradientMap) (value : Expr) : Prop :=
  ∃ op xs attrs gradient,
    value = Call op (map EVar xs) attrs
    ∧ gradient_map op = Some gradient
    ∧ ∀ call grad, (length xs ≤ length (gradient call grad))%nat.




End AD.

(** ** The gradient operators of grad.cc *)

Module Grad.

Section Operators.
(** [GetStructInfo(expr)]: the struct info annotated on a normalized
    expression; the annotation is kept outside the expression tree. *)
Variable GetStructInfo : Expr → StructInfo.

Definition nll_loss_backward (output_grad predictions targets : Expr)
  (weights : option Expr) (reduction : string) (ignore_index : Z) : Expr :=
  let attrs := NLLLossAttrs reduction ignore_index in
  match weights with
  | Some w =>
      Call "relax.grad.nll_loss_backward"
        [output_grad; predictions; targets; w] attrs
  | None =>
      Call "relax.grad.nll_loss_backward"
        [output_grad; predictions; targets] attrs
  end.

Definition InferStructInfoNLLLossBackward (call : Expr) : Result StructInfo :=
  do a <- at_index (AD.call_args call) 1;
  OK (GetStructInfo a).

Definition max_pool2d_backward (output_grad data : Expr)
  (pool_size strides padding dilation : list Z) (ceil_mode : bool)
  (layout : string) (out_layout : option string) : Expr :=
  let attrs := Pool2DAttrs pool_size strides padding dilation ceil_mode layout
                 (default layout out_layout) in
  Call "relax.grad.max_pool2d_backward" [output_grad; data] attrs.

Definition InferStructInfoMaxPool2DBackward (call : Expr) : Result StructInfo :=
  do a <- at_index (AD.call_args call) 1;
  OK (GetStructInfo a).

Definition avg_pool2d_backward (output_grad data : Expr)
  (pool_size strides padding dilation : list Z) (ceil_mode : bool)
  (layout : string) (out_layout : option string) : Expr :=
  let attrs := Pool2DAttrs pool_size strides padding dilation ceil_mode layout
                 (default layout out_layout) in
  Call "relax.grad.avg_pool2d_backward" [output_grad; data] attrs.

Definition InferStructInfoAvgPool2DBackward (call : Expr) : Result StructInfo :=
  do a <- at_index (AD.call_args call) 1;
  OK (GetStructInfo a).

Definition take_backward (output_grad x indices : Expr) (axis : option Z) : Expr :=
  Call "relax.grad.take_backward" [output_grad; x; indices] (TakeAttrs axis).

Definition InferStructInfoTakeBackward (call : Expr) : Result StructInfo :=
  do a <- at_index (AD.call_args call) 1;
  OK (GetStructInfo a).

(** The [FInferStructInfo] attribute set by the [TVM_REGISTER_OP] blocks. *)
Definition FInferStructInfo (op : string) : option (Expr → Result StructInfo) :=
  if bool_decide (op = "relax.grad.nll_loss_backward")
  then Some InferStructInfoNLLLossBackward
  else if bool_decide (op = "relax.grad.max_pool2d_backward")
  then Some InferStructInfoMaxPool2DBackward
  else if bool_decide (op = "relax.grad.avg_pool2d_backward")
  then Some InferStructInfoAvgPool2DBackward
  else if bool_decide (op = "relax.grad.take_backward")
  then Some InferStructInfoTakeBackward
  else None.

(** Struct info inferred for a call through the attribute of its operator. *)
Definition infer (call : Expr) : Result StructInfo :=
  match call with
  | Call op _ _ =>
      match FInferStructInfo op with
      | Some f => f call
      | None => Fatal (DiagnosticError "no FInferStructInfo")
      end
  | _ => Fatal (DiagnosticError "not a call")
  end.
End Operators.

End Grad.

(** ** Unary operators: unary.cc and op_common.h *)

Module Unary.

(** The arithmetic operators registered by unary.cc, each with its
    [require_float_dtype] flag. *)
Definition unary_arith_ops : list (string * bool) :=
  [("abs", false); ("acos", true); ("acosh", true); ("asin", true);
   ("asinh", true); ("atan", true); ("atanh", true); ("ceil", false);
   ("cos", true); ("cosh", true); ("exp", true); ("floor", false);
   ("log", true); ("negative", false); ("round", false); ("sigmoid", true);
   ("sign", false); ("sin", true); ("sinh", true); ("square", true);
   ("sqrt", true); ("tan", true); ("tanh", true)].

Definition op_name (call : Expr) : string :=
  match call with
  | Call op _ _ => op
  | _ => ""
  end.

Section Infer.
(** [GetInputTensorStructInfo] is declared in op_common.h and defined
    elsewhere: it returns the tensor struct info of each input, or reports
    a fatal error. *)
Variable GetInputTensorStructInfo : Expr → Result (list TensorStructInfo).

Definition GetUnaryInputTensorStructInfo (call : Expr) : Result TensorStructInfo :=
  do infos <- GetInputTensorStructInfo call;
  at_index infos 0.

(** [[
template <bool require_float_dtype>
inline StructInfo InferStructInfoUnary(const Call& call, const BlockBuilder& ctx) {
TensorStructInfo input_sinfo = GetUnaryInputTensorStructInfo(call, ctx);
if (require_float_dtype && !input_sinfo->IsUnknownDtype() && !input_sinfo->dtype.is_float()) {
  ctx->ReportFatal(...);
}
return input_sinfo;
}
]] *)
Definition InferStructInfoUnary (require_float_dtype : bool) (call : Expr)
  : Result StructInfo :=
  do input_sinfo <- GetUnaryInputTensorStructInfo call;
  if require_float_dtype && negb (IsUnknownDtype input_sinfo)
     && negb (is_float (dtype input_sinfo))
  then Fatal (DiagnosticError
                (op_name call +:+ " requires the input tensor to have float dtype."))
  else OK (TensorSI input_sinfo).

(** [RELAX_REGISTER_UNARY_ARITH_OP_AND_IMPL(OpName, RequireFloatDtype)]
    (the macro itself is in unary.h) registers ["relax." #OpName] with
    [InferStructInfoUnary<RequireFloatDtype>], as
    [RELAX_REGISTER_UNARY_OP_INTERFACE] of op_common.h does. *)
Fixpoint registered (table : list (string * bool)) (op : string)
  : option (Expr → Result StructInfo) :=
  match table with
  | [] => None
  | (name, require_float_dtype) :: table' =>
      if bool_decide (op = "relax." +:+ name)
      then Some (InferStructInfoUnary require_float_dtype)
      else registered table' op
  end.

Definition FInferStructInfo : string → option (Expr → Result StructInfo) :=
  registered unary_arith_ops.
End Infer.

End Unary.

(** ** The programs of the draft *)

Module Examples.
Import AD.

Definition f32 : DataType := DataType_Float 32.
Definition tensor (dims : list Z) : StructInfo :=
  TensorSI (mkTensorStructInfo (Some dims) f32 (Z.of_nat (length dims))).

Definition x : Var := mkVar "x" (tensor [5; 5]%Z).
Definition y : Var := mkVar "y" (tensor [5; 5]%Z).
Definition lv0 : Var := mkVar "lv0" (tensor [5; 5]%Z).
Definition lv1 : Var := mkVar "lv1" (tensor [5; 5]%Z).
Definition lv2 : Var := mkVar "lv2" (tensor []).
Definition gv0 : Var := mkVar "gv0" (tensor []).

Definition op2 (op : string) (a b : Var) : Expr := Call op [EVar a; EVar b] NoAttrs.
Definition op1 (op : string) (a : Var) : Expr := Call op [EVar a] NoAttrs.

(** E.g. 1.1:
[[
    lv0 = R.add(x, y)
    gv0 = R.sum(lv0)
    return gv0
]] *)
Definition eg11 : Function :=
  mkFunction [x; y]
    [(lv0, op2 "relax.add" x y); (gv0, op1 "relax.sum" lv0)]
    (EVar gv0).

(** E.g. 1.2, with the irrelevant bindings [lv1] and [lv2]:
[[
    lv0 = relax.add(x, y)
    lv1 = relax.sub(x, y)
    lv2 = relax.sum(lv1)
    gv0 = relax.sum(lv0)
    return gv0
]] *)
Definition eg12 : Function :=
  mkFunction [x; y]
    [(lv0, op2 "relax.add" x y); (lv1, op2 "relax.sub" x y);
     (lv2, op1 "relax.sum" lv1); (gv0, op1 "relax.sum" lv0)]
    (EVar gv0).

(** E.g. 1.1 with [relax.sub], which has no rule in the draft, on the path to
    the result. *)
Definition eg11_sub : Function :=
  mkFunction [x; y]
    [(lv0, op2 "relax.sub" x y); (gv0, op1 "relax.sum" lv0)]
    (EVar gv0).

Definition ones_scalar : Expr := Call "relax.ones" [ShapeExpr []] (InitAttrs f32).
Definition grad_ (n : nat) : Var := mkVar ("grad_" +:+ pretty n) ObjectStructInfo.

(** The state of the walk over E.g. 1.2 when it reaches [lv2 = relax.sum(lv1)],
    that is after the visit of [gv0 = relax.sum(lv0)]. *)
Definition eg12_at_lv2 : State :=
  let gv0_adjoint := CreateAdjointVar gv0 in
  let partial := Call "relax.broadcast_to" [EVar gv0_adjoint; ShapeExpr [5; 5]%Z] NoAttrs in
  mkState {[ "gv0" := gv0_adjoint ]}
          {[ "gv0" := ones_scalar; "lv0" := EVar (grad_ 0) ]}
          [(partial, grad_ 0); (ones_scalar, gv0_adjoint)]
          [(gv0_adjoint, ones_scalar); (grad_ 0, partial)]
          1.

(** Scenario S5, a partial update of a tuple adjoint:
[[
    u = t[0]
    gv0 = R.sum(u)
    return gv0
]]
    with [t] a parameter of three tensors. *)
Definition t : Var :=
  mkVar "t" (TupleStructInfo [tensor [5; 5]%Z; tensor [5; 5]%Z; tensor [5; 5]%Z]).
Definition u : Var := mkVar "u" (tensor [5; 5]%Z).

Definition s5 : Function :=
  mkFunction [t]
    [(u, TupleGetItem (EVar t) 0); (gv0, op1 "relax.sum" u)]
    (EVar gv0).

Definition zeros55 : Expr := Call "relax.zeros" [ShapeExpr [5; 5]%Z] (InitAttrs f32).

(** The state of the walk over S5 when it reaches [u = t[0]]. *)
Definition s5_at_u : State :=
  let gv0_adjoint := CreateAdjointVar gv0 in
  let partial := Call "relax.broadcast_to" [EVar gv0_adjoint; ShapeExpr [5; 5]%Z] NoAttrs in
  mkState {[ "gv0" := gv0_adjoint ]}
          {[ "gv0" := ones_scalar; "u" := EVar (grad_ 0) ]}
          [(partial, grad_ 0); (ones_scalar, gv0_adjoint)]
          [(gv0_adjoint, ones_scalar); (grad_ 0, partial)]
          1.

(** Scenario S4, a tuple construction:
[[
    t2 = (a, b)
    u = t2[0]
    v = t2[1]
    s = R.add(u, v)
    gv0 = R.sum(s)
    return gv0
]] *)
Definition a : Var := mkVar "a" (tensor [5; 5]%Z).
Definition b : Var := mkVar "b" (tensor [5; 5]%Z).
Definition t2 : Var := mkVar "t2" (TupleStructInfo [tensor [5; 5]%Z; tensor [5; 5]%Z]).
Definition v : Var := mkVar "v" (tensor [5; 5]%Z).
Definition s : Var := mkVar "s" (tensor [5; 5]%Z).

Definition s4 : Function :=
  mkFunction [a; b]
    [(t2, Tuple [EVar a; EVar b]);
     (u, TupleGetItem (EVar t2) 0); (v, TupleGetItem (EVar t2) 1);
     (s, op2 "relax.add" u v); (gv0, op1 "relax.sum" s)]
    (EVar gv0).

(** The state of the walk over S4 when it reaches [t2 = (a, b)]. *)
Definition s4_at_t2 : State :=
  let gv0_adjoint := CreateAdjointVar gv0 in
  let s_adjoint := CreateAdjointVar s in
  let u_adjoint := CreateAdjointVar u in
  let v_adjoint := CreateAdjointVar v in
  let partial_s := Call "relax.broadcast_to" [EVar gv0_adjoint; ShapeExpr [5; 5]%Z] NoAttrs in
  let partial_uv := Call "relax.collapse_sum_to" [EVar s_adjoint; ShapeExpr [5; 5]%Z] NoAttrs in
  mkState {[ "gv0" := gv0_adjoint; "s" := s_adjoint; "v" := v_adjoint; "u" := u_adjoint ]}
          {[ "gv0" := ones_scalar; "s" := EVar (grad_ 0);
             "v" := EVar (grad_ 1); "u" := EVar (grad_ 1);
             "t2" := Tuple [Call "relax.add" [zeros55; EVar u_adjoint] NoAttrs;
                            Call "relax.add" [zeros55; EVar v_adjoint] NoAttrs] ]}
          [(EVar (grad_ 1), u_adjoint); (EVar (grad_ 1), v_adjoint);
           (partial_uv, grad_ 1); (EVar (grad_ 0), s_adjoint);
           (partial_s, grad_ 0); (ones_scalar, gv0_adjoint)]
          [(gv0_adjoint, ones_scalar); (grad_ 0, partial_s);
           (s_adjoint, EVar (grad_ 0)); (grad_ 1, partial_uv);
           (v_adjoint, EVar (grad_ 1)); (u_adjoint, EVar (grad_ 1))]
          2.

Definition w : Var := mkVar "w" (tensor [5; 5]%Z).



(** A registry whose rule for [relax.sum] returns the adjoint of the result
    as it is, a scalar, for an argument of shape (5, 5). *)
Definition unbroadcast_sum_grad : FPrimalGradient := λ orig grad, [grad].

Definition mismatched_gradient_map : GradientMap := λ op,
  if bool_decide (op = "relax.sum") then Some unbroadcast_sum_grad
  else draft_gradient_map op.

(** An input getter for a call whose single input is an int32 tensor, and
    one for a float32 tensor. *)
Definition int32_input : Expr → Result (list TensorStructInfo) :=
  λ _, OK [mkTensorStructInfo (Some [5; 5]%Z) (DataType_Int 32) 2].
Definition float32_input : Expr → Result (list TensorStructInfo) :=
  λ _, OK [mkTensorStructInfo (Some [5; 5]%Z) f32 2].

End Examples.


(** ** More of the Gradient pass: what its helpers keep *)

Module Walk.
Import AD.

(** The sub-expression of a nested tuple expression at a path of slot
    indices. *)
Fixpoint sub (e : Expr) (path : list nat) : option Expr :=
  match path with
  | [] => Some e
  | i :: path' =>
      match e with
      | Tuple fields =>
          match fields !! i with
          | Some f => sub f path'
          | None => None
          end
      | _ => None
      end
  end.

Definition is_Tuple (e : Expr) : bool :=
  match e with
  | Tuple _ => true
  | _ => false
  end.

(** Every leaf of a struct info is a tensor whose shape is known. *)
Fixpoint shapes_known (s : StructInfo) : bool :=
  match s with
  | TupleStructInfo fields =>
      (fix go (l : list StructInfo) : bool :=
         match l with
         | [] => true
         | f :: l' => shapes_known f && go l'
         end) fields
  | TensorSI t =>
      match shape t with
      | Some _ => true
      | None => false
      end
  | ObjectStructInfo => false
  end.

Definition is_TupleStructInfo (s : StructInfo) : bool :=
  match s with
  | TupleStructInfo _ => true
  | _ => false
  end.

(** A state with [adjoint_var_map_] replaced. *)
Definition with_vars (m : gmap string Var) (st : State) : State :=
  mkState m (adjoint_expr_map_ st) (adjoint_expr_to_var_ st) (emitted st)
          (fresh st).

Definition rmap {A B} (f : A → B) (r : Result A) : Result B :=
  match r with
  | OK a => OK (f a)
  | Fatal e => Fatal e
  end.

(** [adjoint_var_map_] after the loop has visited [bindings]. *)
Definition visited_vars (bindings : list Binding) (m : gmap string Var)
  : gmap string Var :=
  foldl (λ m (b : Binding), <[vid b.1 := CreateAdjointVar b.1]> m) m bindings.

(** Every entry of [adjoint_expr_to_var_] names an expression that is bound
    to that variable in the emitted block. *)
Definition memo_sound (st : State) : Prop :=
  ∀ e v, (e, v) ∈ adjoint_expr_to_var_ st → (v, e) ∈ emitted st.

(** [st'] keeps what [st] has: the emitted bindings as a prefix, every key of
    the two expression maps, and the counter of anonymous variables does not
    go back. *)
Definition grows (st st' : State) : Prop :=
  emitted st `prefix_of` emitted st'
  ∧ (fresh st ≤ fresh st')%nat
  ∧ (∀ x, is_Some (adjoint_expr_map_ st !! x) → is_Some (adjoint_expr_map_ st' !! x))
  ∧ (∀ e, is_Some (expr_to_var_lookup (adjoint_expr_to_var_ st) e) →
          is_Some (expr_to_var_lookup (adjoint_expr_to_var_ st') e)).

(** What one step of the pass keeps. *)
Definition keeps (st st' : State) : Prop :=
  grows st st' ∧ (memo_sound st → memo_sound st').

End Walk.

(** ** More of op_common.h *)

Module OpCommon.

(** [[
if (x1_sinfo->IsUnknownDtype() || x2_sinfo->IsUnknownDtype()) {
  return DataType::Void();
} else if (x1_sinfo->dtype != x2_sinfo->dtype) {
  ctx->ReportFatal(...);
}
return x1_sinfo->dtype;
]] *)
Definition InferBinaryArithOpOutDtype (x1_sinfo x2_sinfo : TensorStructInfo)
  : Result DataType :=
  if IsUnknownDtype x1_sinfo || IsUnknownDtype x2_sinfo then OK DataType_Void
  else if negb (bool_decide (dtype x1_sinfo = dtype x2_sinfo))
  then Fatal (DiagnosticError "Data types must be equal for binary operators")
  else OK (dtype x1_sinfo).

(** [[
if (padding.size() == 1) {
  return {padding[0], padding[0], padding[0], padding[0]};
} else if (padding.size() == 2) {
  return {padding[0], padding[1], padding[0], padding[1]};
} else if (padding.size() == 4) {
  return padding;
}
LOG(FATAL) << ...
]] *)
Definition GetCompletePadding2D {PrimExpr} (padding : list PrimExpr)
  : Result (list PrimExpr) :=
  if bool_decide (length padding = 1%nat) then
    do p0 <- at_index padding 0;
    OK [p0; p0; p0; p0]
  else if bool_decide (length padding = 2%nat) then
    do p0 <- at_index padding 0;
    do p1 <- at_index padding 1;
    OK [p0; p1; p0; p1]
  else if bool_decide (length padding = 4%nat) then OK padding
  else Fatal (DiagnosticError
                "The input padding length is expected to be either 1, 2 or 4.").

(** The make-function of [RELAX_REGISTER_UNARY_OP_INTERFACE(OpName, _)]:
    [Call(op, {x}, Attrs(), {})] with [op = Op::Get("relax." #OpName)]. *)
Definition unary_op (OpName : string) (x : Expr) : Expr :=
  Call ("relax." +:+ OpName) [x] NoAttrs.


End OpCommon.

(** ** The registrations of grad.cc *)

Module GradRegistry.

(** [set_num_inputs] of the four [TVM_REGISTER_OP] blocks. *)
Definition num_inputs (op : string) : option nat :=
  if bool_decide (op = "relax.grad.nll_loss_backward") then Some 4%nat
  else if bool_decide (op = "relax.grad.max_pool2d_backward") then Some 2%nat
  else if bool_decide (op = "relax.grad.avg_pool2d_backward") then Some 2%nat
  else if bool_decide (op = "relax.grad.take_backward") then Some 3%nat
  else None.

End GradRegistry.

(** ** legalize.cc *)

Module Legalize.

Section Mutator.
(** The block builder that a legalization function may emit into. *)
Variable BlockBuilder : Type.

(** [FRelaxLegalize]: from the builder and the call to the legalized
    expression. *)
Definition FRelaxLegalize : Type := BlockBuilder → Expr → BlockBuilder * Expr.

(** [Op::GetAttrMap<FRelaxLegalize>("FRelaxLegalize")], by operator name. *)
Variable legalize_map : string → option FRelaxLegalize.
(** [cmap_], an [Optional<Map<String, PackedFunc>>]. *)
Variable cmap_ : option (string → option FRelaxLegalize).
(** Both are defined in other files. *)
Variable KnowAllShapeValues : StructInfo → bool.
Variable GetStructInfo : Expr → StructInfo.

(** What [VisitExpr_] leaves behind: the builder, the warnings logged, and
    the expression returned. *)
Record Visited := mkVisited {
  builder_ : BlockBuilder;
  warnings : list string;
  result : Expr
}.

(** [know_all_shape] after the loop over the arguments and the update for
    the call itself, from its initial value. *)
Definition know_all_shape_of (init : bool) (visited_call : Expr) : bool :=
  let after_args :=
    foldl (λ know arg, know || KnowAllShapeValues (GetStructInfo arg))
          init (AD.call_args visited_call) in
  after_args || KnowAllShapeValues (GetStructInfo visited_call).

(** [VisitExpr_] for a [CallNode] from [visited_call] on, the call whose
    operator and arguments [VisitExprPostOrder_] has already visited. *)
Definition VisitCall (builder : BlockBuilder) (visited_call : Expr) : Visited :=
  match visited_call with
  | Call op _ _ =>
      (* Priority: customize > builtin. *)
      let custom :=
        match cmap_ with
        | Some m => m op
        | None => None
        end in
      let '(flegalize, logged) :=
        match legalize_map op with
        | None =>
            (custom,
             if bool_decide (op ≠ "relax.call_tir")
             then ["No legalization func for " +:+ op +:+ " is found."]
             else [])
        | Some builtin =>
            (match custom with
             | Some f => Some f
             | None => Some builtin
             end, [])
        end in
      let know_all_shape := know_all_shape_of true visited_call in
      match flegalize with
      | Some f =>
          if know_all_shape
          then let '(builder', e) := f builder visited_call in
               mkVisited builder' logged e
          else mkVisited builder logged visited_call
      | None => mkVisited builder logged visited_call
      end
  | _ => mkVisited builder [] visited_call
  end.
End Mutator.

End Legalize.

(** ** shape_lower.cc *)

Module ShapeLower.

Section Slots.
(** A [PrimExpr] is a key of [Map<PrimExpr, IntImm>] by the identity of its
    object. *)
Context `{Countable PrimExpr}.

(** The body of the lambda of [PrepareExpr2Slot] for one dimension:
[[
if (ret.count(prim_e) == 0) {
  IntImm idx(ShapeDType(), cnt++);
  ret.Set(prim_e, idx);
}
]] *)
Definition assign_slot (acc : Z * gmap PrimExpr Z) (prim_e : PrimExpr)
  : Z * gmap PrimExpr Z :=
  let '(cnt, ret) := acc in
  match ret !! prim_e with
  | None => ((cnt + 1)%Z, <[prim_e := cnt]> ret)
  | Some _ => (cnt, ret)
  end.

(** The lambda on one [ShapeExpr]: the loop over [shape->values]. *)
Definition visit_shape (acc : Z * gmap PrimExpr Z) (values : list PrimExpr)
  : Z * gmap PrimExpr Z :=
  foldl assign_slot acc values.

(** [PrepareExpr2Slot], over the values of the [ShapeExpr] nodes of the
    function in the order in which [PostOrderVisit] meets them. *)
Definition PrepareExpr2Slot (shapes : list (list PrimExpr)) : gmap PrimExpr Z :=
  (foldl visit_shape (0%Z, ∅) shapes).2.

(** [heap_size_ = IntImm(ShapeDType(), expr2slot_.size())] in [Lower]. *)
Definition heap_size (expr2slot_ : gmap PrimExpr Z) : Z :=
  Z.of_nat (size expr2slot_).

(** [expr2slot_.at(e)]: [Map::at] raises on a key that is not in the map. *)
Definition at_slot (expr2slot_ : gmap PrimExpr Z) (e : PrimExpr) : Result Z :=
  match expr2slot_ !! e with
  | Some idx => OK idx
  | None => Fatal IndexOutOfRange
  end.

(** The loop that [VisitMatchShape] runs over [pattern] and
    [VisitExpr_] for a [ShapeExprNode] over [node->values]:
[[
for (PrimExpr e : node->values) {
  indices.push_back(expr2slot_.at(e));
}
]] *)
Fixpoint slot_indices (expr2slot_ : gmap PrimExpr Z) (values : list PrimExpr)
  : Result (list Z) :=
  match values with
  | [] => OK []
  | e :: values' =>
      do idx <- at_slot expr2slot_ e;
      do indices <- slot_indices expr2slot_ values';
      OK (idx :: indices)
  end.

(** The counter and the map agree: the slots are the numbers below the
    counter, each of them the slot of exactly one key. *)
Definition dense (acc : Z * gmap PrimExpr Z) : Prop :=
  let '(cnt, ret) := acc in
  cnt = Z.of_nat (size ret)
  ∧ (∀ e i, ret !! e = Some i → (0 ≤ i < cnt)%Z)
  ∧ (∀ e1 e2 i, ret !! e1 = Some i → ret !! e2 = Some i → e1 = e2)
  ∧ (∀ i, (0 ≤ i < cnt)%Z → ∃ e, ret !! e = Some i).
End Slots.

End ShapeLower.

(** * Properties *)

(** ** Equality of expressions *)

Lemma StructInfo_eqb_eq (a b : StructInfo) : StructInfo_eqb a b = true ↔ a = b.
Proof.
  revert b. induction a as [|t|fields IH] using StructInfo_nested_ind;
    intros [|u|gs]; simpl; try (split; [discriminate|congruence]); try done.
  - rewrite bool_decide_eq_true. split; congruence.
  - revert gs. induction IH as [|x l Hx _ IHl]; intros [|y gs];
      try (split; [discriminate|congruence]); try done.
    rewrite andb_true_iff, Hx, IHl. split.
    + intros [-> Heq]. by inversion Heq.
    + intros Heq. by inversion Heq.
Qed.

Lemma Var_eqb_eq (v w : Var) : Var_eqb v w = true ↔ v = w.
Proof.
  unfold Var_eqb. rewrite andb_true_iff, bool_decide_eq_true, StructInfo_eqb_eq.
  destruct v, w; simpl. split; [intros [-> ->]; done | intros [= -> ->]; done].
Qed.

Lemma Expr_eqb_eq (a b : Expr) : Expr_eqb a b = true ↔ a = b.
Proof.
  revert b.
  induction a as [v|fields IH|t i IH|op args attrs IH|vs|c] using Expr_nested_ind;
    intros [w|gs|u j|op' args' attrs'|ws|d]; simpl;
    try (split; [discriminate|congruence]).
  - rewrite Var_eqb_eq. split; congruence.
  - revert gs. induction IH as [|x l Hx _ IHl]; intros [|y gs];
      try (split; [discriminate|congruence]); try done.
    rewrite andb_true_iff, Hx, IHl. split.
    + intros [-> Heq]. by inversion Heq.
    + intros Heq. by inversion Heq.
  - rewrite andb_true_iff, IH, bool_decide_eq_true. split.
    + by intros [-> ->].
    + by intros [= -> ->].
  - rewrite !andb_true_iff, !bool_decide_eq_true.
    assert (Hgo : ∀ args',
      (fix go (l1 l2 : list Expr) {struct l1} : bool :=
         match l1 with
         | [] => match l2 with [] => true | _ :: _ => false end
         | x :: l1' =>
             match l2 with
             | [] => false
             | y :: l2' => Expr_eqb x y && go l1' l2'
             end
         end) args args' = true ↔ args = args').
    { clear args'. induction IH as [|x l Hx _ IHl]; intros [|y gs];
        try (split; [discriminate|congruence]); try done.
      rewrite andb_true_iff, Hx, IHl. split.
      - intros [-> Heq]. by subst.
      - intros Heq. by inversion Heq. }
    rewrite Hgo. split.
    + by intros [[-> ->] ->].
    + by intros [= -> -> ->].
  - rewrite bool_decide_eq_true. split; congruence.
  - rewrite bool_decide_eq_true. split; congruence.
Qed.

Lemma Expr_eqb_refl (e : Expr) : Expr_eqb e e = true.
Proof. by apply Expr_eqb_eq. Qed.

(** ** Gradient operators (grad.cc) *)

(** C9: [nll_loss_backward] builds a call to the operator
    [relax.grad.nll_loss_backward] whose attributes carry the given reduction
    and ignore_index, whose arguments are
    [output_grad; predictions; targets; weights] when weights is defined and
    [output_grad; predictions; targets] otherwise, and whose struct info,
    inferred through the [FInferStructInfo] attribute registered for the
    operator, is the struct info of the predictions argument. *)
Theorem nll_loss_backward_call (GetStructInfo : Expr → StructInfo)
  (output_grad predictions targets : Expr) (weights : option Expr)
  (reduction : string) (ignore_index : Z) :
  let call := Grad.nll_loss_backward output_grad predictions targets weights
                reduction ignore_index in
  call = Call "relax.grad.nll_loss_backward"
           (match weights with
            | Some w => [output_grad; predictions; targets; w]
            | None => [output_grad; predictions; targets]
            end)
           (NLLLossAttrs reduction ignore_index)
  ∧ Grad.FInferStructInfo GetStructInfo "relax.grad.nll_loss_backward"
    = Some (Grad.InferStructInfoNLLLossBackward GetStructInfo)
  ∧ Grad.infer GetStructInfo call = OK (GetStructInfo predictions).
Proof.
  destruct weights as [w|]; (split; [reflexivity | split; reflexivity]).
Qed.

(** ** Unary operators (unary.cc, op_common.h) *)

Lemma registered_float (GetInput : Expr → Result (list TensorStructInfo))
  (name : string) :
  (name, true) ∈ Unary.unary_arith_ops →
  Unary.FInferStructInfo GetInput ("relax." +:+ name)
  = Some (Unary.InferStructInfoUnary GetInput true).
Proof.
  unfold Unary.unary_arith_ops. intros Hin.
  repeat (apply elem_of_cons in Hin as [Hin|Hin];
          [inversion Hin; subst; reflexivity|]).
  by apply elem_of_nil in Hin.
Qed.

(** C10: for every unary arithmetic operator registered with
    [require_float_dtype = true], struct-info inference reports a fatal error
    exactly when the dtype of the input tensor is known and is not a float
    dtype, and otherwise returns the struct info of the input unchanged.  (When
    the input getter itself fails there is no input tensor, and its error is
    the result.) *)
Theorem InferStructInfoUnary_require_float
  (GetInput : Expr → Result (list TensorStructInfo)) (name : string) (call : Expr) :
  (name, true) ∈ Unary.unary_arith_ops →
  ∃ infer,
    Unary.FInferStructInfo GetInput ("relax." +:+ name) = Some infer ∧
    match Unary.GetUnaryInputTensorStructInfo GetInput call with
    | OK input_sinfo =>
        ((∃ msg, infer call = Fatal (DiagnosticError msg))
         ↔ IsUnknownDtype input_sinfo = false ∧ is_float (dtype input_sinfo) = false)
        ∧ (¬ (IsUnknownDtype input_sinfo = false ∧ is_float (dtype input_sinfo) = false)
           → infer call = OK (TensorSI input_sinfo))
    | Fatal e => infer call = Fatal e
    end.
Proof.
  intros Hin. eexists. split; [by apply registered_float|].
  unfold Unary.InferStructInfoUnary.
  destruct (Unary.GetUnaryInputTensorStructInfo GetInput call) as [t|e]; simpl; [|done].
  destruct (IsUnknownDtype t), (is_float (dtype t)); simpl; split;
    try (split; [intros [msg Hm]; discriminate Hm | intros [? ?]; discriminate]);
    try (intros _; reflexivity);
    try (split; [intros _; done | intros _; eauto]).
  intros Hn. by destruct Hn.
Qed.

Lemma InferStructInfoUnary_require_float_witness :
  ∃ infer,
    Unary.FInferStructInfo Examples.int32_input ("relax." +:+ "exp") = Some infer ∧
    match Unary.GetUnaryInputTensorStructInfo Examples.int32_input
            (Examples.op1 "relax.exp" Examples.x) with
    | OK input_sinfo =>
        ((∃ msg, infer (Examples.op1 "relax.exp" Examples.x) = Fatal (DiagnosticError msg))
         ↔ IsUnknownDtype input_sinfo = false ∧ is_float (dtype input_sinfo) = false)
        ∧ (¬ (IsUnknownDtype input_sinfo = false ∧ is_float (dtype input_sinfo) = false)
           → infer (Examples.op1 "relax.exp" Examples.x) = OK (TensorSI input_sinfo))
    | Fatal e => infer (Examples.op1 "relax.exp" Examples.x) = Fatal e
    end.
Proof.
  apply (InferStructInfoUnary_require_float Examples.int32_input "exp"
           (Examples.op1 "relax.exp" Examples.x)).
  unfold Unary.unary_arith_ops. repeat constructor.
Defined.

(** On an int32 input [relax.exp] is rejected, on a float32 input its struct
    info is that of the input. *)
Example exp_int32_fatal :
  ∃ msg, Unary.InferStructInfoUnary Examples.int32_input true
           (Examples.op1 "relax.exp" Examples.x) = Fatal (DiagnosticError msg).
Proof. eexists. reflexivity. Qed.

Example exp_float32_ok :
  Unary.InferStructInfoUnary Examples.float32_input true
    (Examples.op1 "relax.exp" Examples.x) = OK (Examples.tensor [5; 5]%Z).
Proof. reflexivity. Qed.

(** ** Equations of the recursive functions of the pass *)

Import AD.

Section Loops.
Variable memo : list (Expr * Var).

Lemma Addition_Tuple (base : Expr) (incs : list Expr) :
  Addition memo base (Tuple incs) =
  match base with
  | Tuple bases =>
      if bool_decide (length bases = length incs)
      then do ret <- Addition_loop memo incs bases; OK (Tuple ret)
      else Fatal InternalInvariantViolation
  | _ => Fatal InternalInvariantViolation
  end.
Proof.
  destruct base; reflexivity.
Qed.

Lemma Addition_not_Tuple (base increment : Expr) :
  (∀ incs, increment ≠ Tuple incs) →
  Addition memo base increment
  = OK (Call "relax.add" [base; ReplaceExprByVar memo increment] NoAttrs).
Proof. destruct increment; try reflexivity. intros H. by destruct (H fields). Qed.
End Loops.

Lemma BuildEmptySlot_Tuple (fields : list StructInfo) :
  BuildEmptySlot (TupleStructInfo fields)
  = do ret <- BuildEmptySlots fields; OK (Tuple ret).
Proof.
  reflexivity.
Qed.

Lemma UpdateExprMap_Tuple (bases : list Expr) (increment : Expr) (st : State) :
  UpdateExprMap (Tuple bases) increment st = UpdateExprMap_loop increment bases 0 st.
Proof.
  simpl. generalize 0%nat. revert st.
  induction bases as [|b bases IH]; intros st i; [reflexivity|].
  simpl. destruct (match increment with Tuple incs => at_index incs i | _ => _ end);
    [|reflexivity]. simpl.
  destruct (UpdateExprMap b a st); [|reflexivity]. simpl. apply IH.
Qed.

Lemma UpdateExprMap_Var (v : Var) (increment : Expr) (st : State) :
  UpdateExprMap (EVar v) increment st =
  AddToAdjoint v (EVar (NameIncrement increment st).1) (NameIncrement increment st).2.
Proof. simpl. by destruct (NameIncrement increment st). Qed.

(** ** Which errors the helpers can raise *)

Lemma benign_OK {A} (a : A) : benign (OK a).
Proof. intros e H. discriminate. Qed.

Lemma benign_Fatal_internal {A} : benign (@Fatal A InternalInvariantViolation).
Proof. intros e [= <-]. by left. Qed.

Lemma benign_Fatal_index {A} : benign (@Fatal A IndexOutOfRange).
Proof. intros e [= <-]. by right. Qed.

Lemma benign_bind {A B} (m : Result A) (k : A → Result B) :
  benign m → (∀ a, m = OK a → benign (k a)) → benign (bind m k).
Proof.
  intros Hm Hk. destruct m as [a|e]; simpl; [by apply Hk|].
  intros e' [= <-]. by apply Hm.
Qed.

Lemma benign_at_index {A} (l : list A) (i : nat) : benign (at_index l i).
Proof.
  unfold at_index. destruct (l !! i); [apply benign_OK | apply benign_Fatal_index].
Qed.

Create HintDb benign.
#[local] Hint Resolve benign_OK benign_Fatal_internal benign_Fatal_index
  benign_at_index : benign.

Lemma Addition_benign memo (base increment : Expr) :
  benign (Addition memo base increment).
Proof.
  revert base.
  induction increment as [v|incs IH|t i _|op args attrs _|vs|c] using Expr_nested_ind;
    intros base; try apply benign_OK.
  rewrite Addition_Tuple. destruct base as [|bases| | | |]; auto with benign.
  destruct (bool_decide _); auto with benign.
  apply benign_bind; [|auto with benign].
  clear -IH. revert bases. induction IH as [|i incs Hi _ IHl]; intros [|b bases];
    simpl; auto with benign.
  apply benign_bind; [apply Hi|]. intros r _.
  apply benign_bind; [apply IHl|]. auto with benign.
Qed.

Lemma AdditionInTuple_benign memo (tuple : Expr) (pos : nat) (increment : Expr) :
  benign (AdditionInTuple memo tuple pos increment).
Proof.
  destruct tuple as [|fields| | | |]; simpl; auto with benign.
  apply benign_bind; [|auto with benign].
  generalize 0%nat. induction fields as [|x l IH]; intros i; simpl; auto with benign.
  apply benign_bind.
  - destruct (bool_decide _); [apply Addition_benign | apply benign_OK].
  - intros r _. apply benign_bind; [apply IH|]. auto with benign.
Qed.

Lemma BuildEmptySlot_benign (s : StructInfo) : benign (BuildEmptySlot s).
Proof.
  induction s as [|t|fields IH] using StructInfo_nested_ind; auto with benign.
  - simpl. destruct (shape t); auto with benign.
  - rewrite BuildEmptySlot_Tuple. apply benign_bind; [|auto with benign].
    induction IH as [|f l Hf _ IHl]; simpl; auto with benign.
    apply benign_bind; [apply Hf|]. intros e _.
    apply benign_bind; [apply IHl|]. auto with benign.
Qed.

Lemma BuildEmptyNestedTupleExpr_benign (s : StructInfo) :
  benign (BuildEmptyNestedTupleExpr s).
Proof.
  destruct s; simpl; auto with benign.
  apply (BuildEmptySlot_benign (TupleStructInfo fields)).
Qed.

Lemma AddToAdjoint_benign (v : Var) (increment : Expr) (st : State) :
  benign (AddToAdjoint v increment st).
Proof.
  unfold AddToAdjoint. destruct (adjoint_expr_map_ st !! vid v); auto with benign.
  apply benign_bind; [apply Addition_benign | auto with benign].
Qed.

Lemma UpdateExprMap_benign (base increment : Expr) (st : State) :
  benign (UpdateExprMap base increment st).
Proof.
  revert increment st.
  induction base as [v|bases IH|t i _|op args attrs _|vs|c] using Expr_nested_ind;
    intros increment st; try apply benign_OK.
  - rewrite UpdateExprMap_Var. apply AddToAdjoint_benign.
  - rewrite UpdateExprMap_Tuple. generalize 0%nat. revert st.
    induction IH as [|b bases Hb _ IHl]; intros st i; simpl; auto with benign.
    apply benign_bind.
    { destruct increment; auto with benign. }
    intros inc_i _. apply benign_bind; [apply Hb|]. intros st1 _. apply IHl.
Qed.

Lemma update_args_benign (args partials : list Expr) (i : nat) (st : State) :
  benign (update_args args partials i st).
Proof.
  revert i st. induction args as [|arg args IH]; intros i st; simpl; auto with benign.
  apply benign_bind; [auto with benign|]. intros p _.
  apply benign_bind; [apply UpdateExprMap_benign|]. intros st1 _. apply IH.
Qed.

#[local] Hint Resolve Addition_benign AdditionInTuple_benign BuildEmptySlot_benign
  BuildEmptyNestedTupleExpr_benign AddToAdjoint_benign UpdateExprMap_benign
  update_args_benign : benign.

(** ** Unknown gradients *)


Lemma bind_Fatal {A B} (m : Result A) (k : A → Result B) (e : ErrorKind) :
  bind m k = Fatal e ↔ m = Fatal e ∨ ∃ a, m = OK a ∧ k a = Fatal e.
Proof.
  destruct m as [a|e']; simpl.
  - split; [intros H; right; eauto | intros [H|(a' & [= <-] & H)]; done].
  - split; [intros [= ->]; by left | intros [[= ->]|(a' & H & _)]; done].
Qed.

Lemma bind_OK {A B} (m : Result A) (k : A → Result B) (b : B) :
  bind m k = OK b ↔ ∃ a, m = OK a ∧ k a = OK b.
Proof.
  destruct m as [a|e']; simpl.
  - split; [eauto | intros (a' & [= <-] & H); done].
  - split; [done | intros (a' & H & _); done].
Qed.

Section Unknown.
Variable gradient_map : GradientMap.
Variable target : Var.



Lemma walk_app (pre post : list Binding) (st : State) :
  walk gradient_map target (pre ++ post) st
  = do st1 <- walk gradient_map target pre st; walk gradient_map target post st1.
Proof.
  revert st. induction pre as [|b pre IH]; intros st; simpl; [reflexivity|].
  destruct (VisitBinding gradient_map target b st); simpl; [apply IH | reflexivity].
Qed.

End Unknown.

Lemma check_preconditions_OK (f : Function) (require_grads : option (list Var))
  (target : Var) :
  check_preconditions f require_grads = OK target →
  ret f = EVar target
  ∧ is_scalar_float (struct_info_ target) = true
  ∧ forallb (λ v, is_param f v && has_float_leaf (struct_info_ v))
      (default [] require_grads) = true.
Proof.
  unfold check_preconditions.
  destruct (ret f) as [t| | | | |]; try done.
  destruct (is_scalar_float (struct_info_ t)) eqn:Hs; simpl; [|done].
  destruct (forallb _ (default _ _)); simpl; [|done].
  by intros [= <-].
Qed.


Lemma scalar_float_seed (target : Var) :
  is_scalar_float (struct_info_ target) = true → is_OK (target_seed target) = true.
Proof. unfold is_scalar_float, target_seed. by destruct (struct_info_ target). Qed.

Lemma emit_param_adjoints_benign (ps : list Var) (st : State) :
  benign (emit_param_adjoints ps st).
Proof.
  revert st. induction ps as [|p ps IH]; intros st; simpl; auto with benign.
  apply benign_bind.
  { unfold emit_param_adjoint. apply benign_bind; [|auto with benign].
    destruct (adjoint_expr_map_ st !! vid p); auto with benign. }
  intros r _. apply benign_bind; [apply IH | auto with benign].
Qed.


(** In E.g. 1.2 the call to [relax.sub], an operator without a rule, is on an
    irrelevant path and the pass succeeds; on the path to the result it makes
    the pass fail. *)
Example eg12_unregistered_sub_is_skipped :
  draft_gradient_map "relax.sub" = None
  ∧ is_OK (differentiate draft_gradient_map {[ "main" := Examples.eg12 ]} "main" None)
    = true.
Proof. split; vm_compute; reflexivity. Qed.

Example eg11_sub_unknown_gradient :
  differentiate draft_gradient_map {[ "main" := Examples.eg11_sub ]} "main" None
  = Fatal UnknownGradient.
Proof. vm_compute. reflexivity. Qed.

(** ** Irrelevant bindings *)

Example eg12_reaches_lv2 :
  walk draft_gradient_map Examples.gv0
    [(Examples.gv0, Examples.op1 "relax.sum" Examples.lv0)] init_state
  = OK Examples.eg12_at_lv2.
Proof. vm_compute. reflexivity. Qed.

(** C2, as stated, fails on the loop of [AD-Version 1]: the adjoint variable
    is created and recorded before the test for irrelevance.  When the walk
    over E.g. 1.2 visits [lv2 = relax.sum(lv1)], [lv2] has no adjoint
    expression, and the visit adds an entry for [lv2] to [adjoint_var_map_].
    Moreover the target is seeded inside the loop: when the walk starts on
    [gv0 = relax.sum(lv0)], [gv0] has no adjoint expression either, and the
    visit emits bindings and sets the adjoint expression of [lv0]. *)
Lemma irrelevant_binding_allocates_adjoint_var :
  (adjoint_expr_map_ Examples.eg12_at_lv2 !! vid Examples.lv2 = None
   ∧ adjoint_var_map_ Examples.eg12_at_lv2 !! vid Examples.lv2 = None
   ∧ ∃ st',
       VisitBinding draft_gradient_map Examples.gv0
         (Examples.lv2, Examples.op1 "relax.sum" Examples.lv1) Examples.eg12_at_lv2
       = OK st'
       ∧ adjoint_var_map_ st' !! vid Examples.lv2 = Some (CreateAdjointVar Examples.lv2)
       ∧ st' ≠ Examples.eg12_at_lv2)
  ∧ (adjoint_expr_map_ init_state !! vid Examples.gv0 = None
     ∧ VisitBinding draft_gradient_map Examples.gv0
         (Examples.gv0, Examples.op1 "relax.sum" Examples.lv0) init_state
       = OK Examples.eg12_at_lv2
     ∧ emitted init_state = []
     ∧ length (emitted Examples.eg12_at_lv2) = 2%nat
     ∧ adjoint_expr_map_ init_state !! vid Examples.lv0 = None
     ∧ adjoint_expr_map_ Examples.eg12_at_lv2 !! vid Examples.lv0
       = Some (EVar (Examples.grad_ 0))).
Proof.
  split.
  - split; [by vm_compute|]. split; [by vm_compute|].
    eexists. split; [vm_compute; reflexivity|]. split; [by vm_compute|].
    intros H. apply (f_equal (λ st, adjoint_var_map_ st !! "lv2")) in H.
    vm_compute in H. discriminate.
  - repeat split; vm_compute; reflexivity.
Qed.

Lemma VisitBinding_skip (gradient_map : GradientMap) (target v : Var)
  (value : Expr) (st : State) :
  adjoint_expr_map_ st !! vid v = None →
  vid v ≠ vid target →
  VisitBinding gradient_map target (v, value) st
  = OK (set_adjoint_var v (CreateAdjointVar v) st).
Proof.
  intros Hv Ht. unfold VisitBinding. cbn [adjoint_expr_map_ set_adjoint_var].
  rewrite Hv. by rewrite bool_decide_eq_false_2.
Qed.

(** C2, amended: a binding whose variable has no adjoint expression when it is
    visited, and is not the target, emits no binding and changes neither
    [adjoint_expr_map_] nor [adjoint_expr_to_var_]; the visit does record the
    adjoint variable of the binding in [adjoint_var_map_]. *)
Theorem VisitBinding_irrelevant (gradient_map : GradientMap) (target v : Var)
  (value : Expr) (st : State) :
  adjoint_expr_map_ st !! vid v = None →
  vid v ≠ vid target →
  ∃ st',
    VisitBinding gradient_map target (v, value) st = OK st'
    ∧ adjoint_expr_map_ st' = adjoint_expr_map_ st
    ∧ adjoint_expr_to_var_ st' = adjoint_expr_to_var_ st
    ∧ emitted st' = emitted st
    ∧ fresh st' = fresh st
    ∧ adjoint_var_map_ st' = <[vid v := CreateAdjointVar v]> (adjoint_var_map_ st).
Proof.
  intros Hv Ht. exists (set_adjoint_var v (CreateAdjointVar v) st).
  split; [|done]. by apply VisitBinding_skip.
Qed.

Lemma VisitBinding_irrelevant_witness :
  ∃ st',
    VisitBinding draft_gradient_map Examples.gv0
      (Examples.lv2, Examples.op1 "relax.sum" Examples.lv1) Examples.eg12_at_lv2
    = OK st'
    ∧ adjoint_expr_map_ st' = adjoint_expr_map_ Examples.eg12_at_lv2
    ∧ adjoint_expr_to_var_ st' = adjoint_expr_to_var_ Examples.eg12_at_lv2
    ∧ emitted st' = emitted Examples.eg12_at_lv2
    ∧ fresh st' = fresh Examples.eg12_at_lv2
    ∧ adjoint_var_map_ st'
      = <[vid Examples.lv2 := CreateAdjointVar Examples.lv2]>
          (adjoint_var_map_ Examples.eg12_at_lv2).
Proof.
  apply (VisitBinding_irrelevant draft_gradient_map Examples.gv0 Examples.lv2).
  - vm_compute. reflexivity.
  - vm_compute. discriminate.
Defined.

(** ** Partial updates of tuple adjoints *)

Lemma BuildEmptySlot_zero (s : StructInfo) (e : Expr) :
  BuildEmptySlot s = OK e → structural_zero s e.
Proof.
  revert e. induction s as [|t|fields IH] using StructInfo_nested_ind; intros e.
  - discriminate.
  - simpl. destruct (shape t) as [values|] eqn:Hs; [|discriminate].
    intros [= <-]. by constructor.
  - rewrite BuildEmptySlot_Tuple. intros (es & Hes & [= <-])%bind_OK.
    constructor. revert es Hes.
    induction IH as [|f l Hf _ IHl]; intros es; simpl.
    + intros [= <-]. constructor.
    + intros (e & He & (es' & Hes' & [= <-])%bind_OK)%bind_OK.
      constructor; [by apply Hf | by apply IHl].
Qed.

Lemma BuildEmptyNestedTupleExpr_zero (s : StructInfo) (e : Expr) :
  BuildEmptyNestedTupleExpr s = OK e →
  ∃ fields es, s = TupleStructInfo fields ∧ e = Tuple es
               ∧ Forall2 structural_zero fields es.
Proof.
  destruct s as [| |fields]; try discriminate. unfold BuildEmptyNestedTupleExpr.
  intros H%BuildEmptySlot_zero. inversion H; subst. eauto.
Qed.

Lemma AdditionInTuple_loop_spec memo (i : nat) (fields : list Expr) (pos : nat)
  (increment : Expr) (news : list Expr) :
  AdditionInTuple_loop memo i fields pos increment = OK news →
  length news = length fields
  ∧ ∀ j, (i + j ≠ pos → news !! j = fields !! j)
         ∧ (i + j = pos → ∀ old, fields !! j = Some old →
              ∃ updated, Addition memo old increment = OK updated
                         ∧ news !! j = Some updated).
Proof.
  revert i news. induction fields as [|x l IH]; intros i news; simpl.
  - intros [= <-]. split; [done|]. intros j. split; [done|]. by intros _ old.
  - intros (r & Hr & (rs & Hrs & [= <-])%bind_OK)%bind_OK.
    apply IH in Hrs as [Hlen Hrs]. split; [simpl; by rewrite Hlen|].
    intros [|j]; simpl.
    + rewrite Nat.add_0_r. split.
      * intros Hne. rewrite bool_decide_eq_false_2 in Hr by done. congruence.
      * intros Heq old [= <-]. rewrite bool_decide_eq_true_2 in Hr by done. eauto.
    + destruct (Hrs j) as [H1 H2]. split.
      * intros Hne. apply H1. lia.
      * intros Heq. apply H2. lia.
Qed.

Lemma AdditionInTuple_spec memo (tuple : Expr) (pos : nat) (increment updated : Expr) :
  AdditionInTuple memo tuple pos increment = OK updated →
  ∃ olds news,
    tuple = Tuple olds ∧ updated = Tuple news
    ∧ length news = length olds
    ∧ (∀ j, j ≠ pos → news !! j = olds !! j)
    ∧ (∀ old, olds !! pos = Some old →
         ∃ s, Addition memo old increment = OK s ∧ news !! pos = Some s).
Proof.
  destruct tuple as [|olds| | | |]; try discriminate. simpl.
  intros (news & Hloop & [= <-])%bind_OK. exists olds, news.
  apply AdditionInTuple_loop_spec in Hloop as [Hlen Hloop].
  repeat split; try done.
  - intros j Hj. by apply Hloop.
  - intros old Hold. by apply (Hloop pos).
Qed.

Section Visit.
Variable gradient_map : GradientMap.
Variable target : Var.

Lemma VisitBinding_relevant (v : Var) (value e : Expr) (st : State) :
  adjoint_expr_map_ st !! vid v = Some e →
  VisitBinding gradient_map target (v, value) st
  = propagate gradient_map v value (CreateAdjointVar v) e (emit_adjoint v e st).
Proof.
  intros Hv. unfold VisitBinding. cbn [adjoint_expr_map_ set_adjoint_var].
  rewrite Hv. simpl. by rewrite Hv.
Qed.

Lemma VisitBinding_target (v : Var) (value one : Expr) (st : State) :
  adjoint_expr_map_ st !! vid v = None →
  vid v = vid target →
  target_seed target = OK one →
  VisitBinding gradient_map target (v, value) st
  = propagate gradient_map v value (CreateAdjointVar v) one
      (emit_adjoint v one (set_adjoint_expr v one st)).
Proof.
  intros Hv Ht Hone. unfold VisitBinding. cbn [adjoint_expr_map_ set_adjoint_var].
  rewrite Hv, bool_decide_eq_true_2, Hone by done. simpl.
  by rewrite lookup_insert_eq.
Qed.

Lemma propagate_TupleGetItem (v x : Var) (k : nat) (adjoint_var : Var)
  (e : Expr) (st st' : State) :
  propagate gradient_map v (TupleGetItem (EVar x) k) adjoint_var e st = OK st' →
  ∃ olds news,
    match adjoint_expr_map_ st !! vid x with
    | Some old => old = Tuple olds
    | None => ∃ fields, struct_info_ x = TupleStructInfo fields
                        ∧ Forall2 structural_zero fields olds
    end
    ∧ st' = set_adjoint_expr x (Tuple news) st
    ∧ length news = length olds
    ∧ (∀ j, j ≠ k → news !! j = olds !! j)
    ∧ (∀ old, olds !! k = Some old →
         ∃ s, Addition (adjoint_expr_to_var_ st) old e = OK s ∧ news !! k = Some s).
Proof.
  simpl. intros (st1 & Hst1 & (old & Hold & (updated & Hup & [= <-])%bind_OK)%bind_OK)%bind_OK.
  destruct (adjoint_expr_map_ st !! vid x) as [old0|] eqn:Hx.
  - injection Hst1 as <-. rewrite Hx in Hold. injection Hold as <-.
    apply AdditionInTuple_spec in Hup as (olds & news & -> & -> & Hlen & Hne & Hk).
    exists olds, news. done.
  - apply bind_OK in Hst1 as (skeleton & Hsk & [= <-]).
    cbn [adjoint_expr_map_ set_adjoint_expr] in Hold.
    rewrite lookup_insert_eq in Hold. injection Hold as <-.
    cbn [adjoint_expr_to_var_ set_adjoint_expr] in Hup.
    apply AdditionInTuple_spec in Hup as (olds & news & -> & -> & Hlen & Hne & Hk).
    apply BuildEmptyNestedTupleExpr_zero in Hsk as (fields & es & Hf & [= <-] & Hz).
    exists olds, news. split; [eauto|]. split; [|done].
    unfold set_adjoint_expr. cbn. by rewrite insert_insert_eq.
Qed.
End Visit.

(** ** Frame properties: updates leave other variables alone *)


Lemma AddToAdjoint_spec (v : Var) (increment : Expr) (st st' : State) :
  AddToAdjoint v increment st = OK st' →
  ∃ new, st' = set_adjoint_expr v new st
    ∧ match adjoint_expr_map_ st !! vid v with
      | None => new = increment
      | Some old => Addition (adjoint_expr_to_var_ st) old increment = OK new
      end.
Proof.
  unfold AddToAdjoint. destruct (adjoint_expr_map_ st !! vid v) as [old|].
  - intros (new & Hnew & [= <-])%bind_OK. eauto.
  - intros [= <-]. eauto.
Qed.


Lemma occurrences_Tuple_cons (x : string) (e : Expr) (l : list Expr) :
  occurrences x (Tuple (e :: l)) = (occurrences x e + occurrences x (Tuple l))%nat.
Proof. reflexivity. Qed.



Section Frame.
Variable gradient_map : GradientMap.
Variable target : Var.



End Frame.

Section Projection.
Variable gradient_map : GradientMap.
Variable target : Var.

(** The two ways a visit can go: the binding is skipped, or its adjoint is
    emitted (after the seeding of the target, if need be) and propagated. *)
Lemma VisitBinding_cases (v : Var) (value : Expr) (st st' : State) :
  VisitBinding gradient_map target (v, value) st = OK st' →
  (adjoint_expr_map_ st !! vid v = None ∧ vid v ≠ vid target
   ∧ st' = set_adjoint_var v (CreateAdjointVar v) st)
  ∨ ∃ e s,
      propagate gradient_map v value (CreateAdjointVar v) e (emit_adjoint v e s) = OK st'
      ∧ (s = st ∧ adjoint_expr_map_ st !! vid v = Some e
         ∨ s = set_adjoint_expr v e st ∧ adjoint_expr_map_ st !! vid v = None
           ∧ vid v = vid target ∧ target_seed target = OK e).
Proof.
  intros Hvisit. destruct (adjoint_expr_map_ st !! vid v) as [e|] eqn:Hv.
  - rewrite (VisitBinding_relevant _ _ _ _ _ _ Hv) in Hvisit. right. eauto 6.
  - destruct (decide (vid v = vid target)) as [Ht|Ht].
    + destruct (target_seed target) as [one|err] eqn:Hone.
      * rewrite (VisitBinding_target _ _ _ _ _ _ Hv Ht Hone) in Hvisit.
        right. exists one, (set_adjoint_expr v one st). eauto 6.
      * unfold VisitBinding in Hvisit. cbn [adjoint_expr_map_ set_adjoint_var] in Hvisit.
        rewrite Hv, bool_decide_eq_true_2, Hone in Hvisit by done. discriminate.
    + rewrite (VisitBinding_skip _ _ _ _ _ Hv Ht) in Hvisit. injection Hvisit as <-.
      by left.
Qed.



End Projection.




Example s5_reaches_u :
  walk draft_gradient_map Examples.gv0
    [(Examples.gv0, Examples.op1 "relax.sum" Examples.u)] init_state
  = OK Examples.s5_at_u.
Proof. vm_compute. reflexivity. Qed.

(** Scenario S5: the adjoint of [t] has the adjoint of [u] added into its
    first slot, and zeros in the two slots that are not read. *)
Example s5_adjoint_of_t :
  ∃ final,
    reverse_walk draft_gradient_map Examples.gv0 Examples.s5 = OK final
    ∧ adjoint_expr_map_ final !! "t"
      = Some (Tuple [Call "relax.add"
                       [Examples.zeros55; EVar (CreateAdjointVar Examples.u)] NoAttrs;
                     Examples.zeros55; Examples.zeros55]).
Proof. eexists. split; vm_compute; reflexivity. Qed.


(** ** The driver *)






Example eg11_adjoint_return :
  ∃ mod' f_adjoint,
    differentiate draft_gradient_map {[ "main" := Examples.eg11 ]} "main" None = OK mod'
    ∧ mod' !! "main_adjoint" = Some f_adjoint
    ∧ ret f_adjoint
      = Tuple [EVar Examples.gv0;
               Tuple [EVar (CreateAdjointVar Examples.x);
                      EVar (CreateAdjointVar Examples.y)]].
Proof. do 2 eexists. split; [|split]; vm_compute; reflexivity. Qed.

(** Scenario S6: with [require_grads = {x}] only the adjoint of [x] is
    returned. *)
Example eg11_require_x :
  ∃ mod' f_adjoint,
    differentiate draft_gradient_map {[ "main" := Examples.eg11 ]} "main"
      (Some [Examples.x]) = OK mod'
    ∧ mod' !! "main_adjoint" = Some f_adjoint
    ∧ ret f_adjoint
      = Tuple [EVar Examples.gv0; Tuple [EVar (CreateAdjointVar Examples.x)]].
Proof. do 2 eexists. split; [|split]; vm_compute; reflexivity. Qed.

(** ** Accumulation of named increments *)








Section Shape.
Variable gradient_map : GradientMap.
Variable target : Var.





End Shape.




(** In E.g. 1.2 only one of the two uses of [x] is relevant. *)
Example eg12_relevant_uses_of_x :
  relevant_uses draft_gradient_map Examples.gv0 "x" (rev (body Examples.eg12)) init_state
  = 1%nat.
Proof. vm_compute. reflexivity. Qed.

(** ** Naming of increments *)

Lemma NameIncrement_spec (increment : Expr) (st : State) :
  let w := (NameIncrement increment st).1 in
  let st' := (NameIncrement increment st).2 in
  expr_to_var_lookup (adjoint_expr_to_var_ st') increment = Some w
  ∧ adjoint_expr_map_ st' = adjoint_expr_map_ st
  ∧ match expr_to_var_lookup (adjoint_expr_to_var_ st) increment with
    | Some w0 => w = w0 ∧ st' = st
    | None => w = (fresh_var st).1
              ∧ emitted st' = emitted st ++ [(w, increment)]
              ∧ adjoint_expr_to_var_ st' = (increment, w) :: adjoint_expr_to_var_ st
    end.
Proof.
  unfold NameIncrement.
  destruct (expr_to_var_lookup (adjoint_expr_to_var_ st) increment) as [w0|] eqn:Hl; simpl.
  - done.
  - by rewrite Expr_eqb_refl.
Qed.




(** ** Tuple constructions *)





Lemma UpdateExprMap_Var_total (v : Var) (increment : Expr) (st : State) :
  is_OK (UpdateExprMap (EVar v) increment st) = true.
Proof.
  rewrite UpdateExprMap_Var. unfold AddToAdjoint.
  destruct (adjoint_expr_map_ _ !! vid v); [|done].
  by rewrite Addition_not_Tuple.
Qed.



Example s4_reaches_t2 :
  walk draft_gradient_map Examples.gv0
    [(Examples.gv0, Examples.op1 "relax.sum" Examples.s);
     (Examples.s, Examples.op2 "relax.add" Examples.u Examples.v);
     (Examples.v, TupleGetItem (EVar Examples.t2) 1);
     (Examples.u, TupleGetItem (EVar Examples.t2) 0)] init_state
  = OK Examples.s4_at_t2.
Proof. vm_compute. reflexivity. Qed.




(** ** Partials returned by the gradient rules *)

Lemma benign_not_mismatch {A} (r : Result A) :
  benign r → r ≠ Fatal GradientShapeMismatch.
Proof. intros H Hr. by destruct (H _ Hr). Qed.

Lemma bind_not_mismatch {A B} (m : Result A) (k : A → Result B) :
  m ≠ Fatal GradientShapeMismatch →
  (∀ a, m = OK a → k a ≠ Fatal GradientShapeMismatch) →
  bind m k ≠ Fatal GradientShapeMismatch.
Proof.
  intros Hm Hk [H|(a & Ha & H)]%bind_Fatal; [done|]. by apply (Hk a).
Qed.

Section Mismatch.
Variable gradient_map : GradientMap.
Variable target : Var.

Lemma propagate_not_mismatch (v : Var) (value : Expr) (adjoint_var : Var)
  (e : Expr) (st : State) :
  propagate gradient_map v value adjoint_var e st ≠ Fatal GradientShapeMismatch.
Proof.
  destruct value as [b|fields|t i|op args attrs|vs|c]; cbn [propagate]; try done.
  - apply benign_not_mismatch; auto with benign.
  - apply benign_not_mismatch. destruct e; auto with benign.
    destruct (bool_decide _); auto with benign.
  - apply benign_not_mismatch. destruct t; auto with benign.
    apply benign_bind.
    { destruct (adjoint_expr_map_ st !! vid v0); auto with benign.
      apply benign_bind; auto with benign. }
    intros st1 _. apply benign_bind.
    { destruct (adjoint_expr_map_ st1 !! vid v0); auto with benign. }
    intros old _. apply benign_bind; auto with benign.
  - destruct (gradient_map op); [|done].
    apply benign_not_mismatch; auto with benign.
Qed.

Lemma VisitBinding_not_mismatch (b : Binding) (st : State) :
  VisitBinding gradient_map target b st ≠ Fatal GradientShapeMismatch.
Proof.
  destruct b as [v value]. unfold VisitBinding.
  apply bind_not_mismatch.
  - destruct (adjoint_expr_map_ _ !! vid v); [done|].
    destruct (bool_decide _); [|done].
    unfold target_seed. by destruct (struct_info_ target).
  - intros [st2|] _; [|done]. apply bind_not_mismatch.
    + by destruct (adjoint_expr_map_ st2 !! vid v).
    + intros e _. apply propagate_not_mismatch.
Qed.

Lemma walk_not_mismatch (bindings : list Binding) (st : State) :
  walk gradient_map target bindings st ≠ Fatal GradientShapeMismatch.
Proof.
  revert st. induction bindings as [|b bindings IH]; intros st; cbn [walk]; [done|].
  apply bind_not_mismatch; [apply VisitBinding_not_mismatch|]. intros st1 _. apply IH.
Qed.
End Mismatch.

Lemma check_preconditions_not_mismatch (f : Function) (require_grads : option (list Var)) :
  check_preconditions f require_grads ≠ Fatal GradientShapeMismatch.
Proof.
  unfold check_preconditions.
  destruct (ret f) as [t| | | | |]; try done.
  destruct (is_scalar_float (struct_info_ t)); simpl; [|done].
  by destruct (forallb _ (default _ _)).
Qed.

Lemma update_args_reads (args partials : list Expr) (i : nat) (st st' : State) :
  update_args args partials i st = OK st' →
  (args ≠ [] → i + length args ≤ length partials)%nat
  ∧ update_args args (take (i + length args) partials) i st = OK st'.
Proof.
  revert i st. induction args as [|arg args IH]; intros i st; cbn [update_args length].
  - intros [= <-]. split; done.
  - intros (p & Hp & (st1 & Hst1 & Hrest)%bind_OK)%bind_OK.
    unfold at_index in *. destruct (partials !! i) as [p'|] eqn:Hi; [|done].
    injection Hp as ->. pose proof (lookup_lt_Some _ _ _ Hi) as Hlt.
    destruct (IH _ _ Hrest) as [Hlen Htake].
    split.
    + intros _. destruct args as [|arg' args]; [simpl; lia|].
      specialize (Hlen ltac:(done)). simpl in *. lia.
    + rewrite lookup_take_lt by lia. rewrite Hi. cbn [bind]. rewrite Hst1. cbn [bind].
      by replace (i + S (length args))%nat with (S i + length args)%nat by lia.
Qed.

Lemma update_args_short (args partials : list Expr) (i : nat) (st : State) :
  (i ≤ length partials < i + length args)%nat →
  is_OK (update_args args partials i st) = false.
Proof.
  revert i st. induction args as [|arg args IH]; intros i st; cbn [update_args length].
  - lia.
  - intros Hlen. unfold at_index. destruct (partials !! i) as [p|] eqn:Hi; [|done].
    cbn [bind]. destruct (UpdateExprMap arg p st) as [st1|]; [|done]. cbn [bind].
    apply IH. apply lookup_lt_Some in Hi. lia.
Qed.

(** C8, as stated, fails on the pass: the loop of [AD-Version 1] reads
    [partials[i]] for each argument and compares nothing.  With a rule for
    [relax.sum] that returns the scalar adjoint of the result for an argument
    of shape (5, 5), the partial and the argument differ in struct info,
    and the pass over E.g. 1.1 still succeeds. *)
Lemma mismatched_partial_is_accepted :
  Examples.mismatched_gradient_map "relax.sum" = Some Examples.unbroadcast_sum_grad
  ∧ Examples.unbroadcast_sum_grad (Examples.op1 "relax.sum" Examples.lv0)
      (EVar (CreateAdjointVar Examples.gv0))
    = [EVar (CreateAdjointVar Examples.gv0)]
  ∧ struct_info_ (CreateAdjointVar Examples.gv0) ≠ struct_info_ Examples.lv0
  ∧ is_OK (differentiate Examples.mismatched_gradient_map
             {[ "main" := Examples.eg11 ]} "main" None) = true.
Proof.
  split; [reflexivity|]. split; [reflexivity|]. split; [vm_compute; discriminate|].
  vm_compute. reflexivity.
Qed.

(** C8, amended: for a call with [n] arguments dispatched during the reverse
    walk, the walker folds [partials[0]], ..., [partials[n - 1]] of the list
    returned by the registered rule: a list with fewer than [n] entries makes
    the pass fail, entries beyond the [n]-th are not read.  The struct info of
    a partial is not compared with that of its argument, and the pass never
    fails with [GradientShapeMismatch].  The gradient operators of grad.cc
    take as struct info that of their second argument, the input that is
    differentiated. *)
Theorem partials_are_read_unchecked (gradient_map : GradientMap)
  (GetStructInfo : Expr → StructInfo) :
  (∀ v op args attrs adjoint_var e st gradient,
     gradient_map op = Some gradient →
     propagate gradient_map v (Call op args attrs) adjoint_var e st
     = update_args args (gradient (Call op args attrs) (EVar adjoint_var)) 0 st)
  ∧ (∀ args partials st st',
       update_args args partials 0 st = OK st' →
       (length args ≤ length partials)%nat
       ∧ update_args args (take (length args) partials) 0 st = OK st')
  ∧ (∀ args partials st,
       (length partials < length args)%nat →
       is_OK (update_args args partials 0 st) = false)
  ∧ (∀ mod_ global_var require_grads,
       differentiate gradient_map mod_ global_var require_grads
       ≠ Fatal GradientShapeMismatch)
  ∧ (∀ output_grad predictions targets weights reduction ignore_index,
       Grad.infer GetStructInfo
         (Grad.nll_loss_backward output_grad predictions targets weights
            reduction ignore_index)
       = OK (GetStructInfo predictions))
  ∧ (∀ output_grad data pool_size strides padding dilation ceil_mode layout out_layout,
       Grad.infer GetStructInfo
         (Grad.max_pool2d_backward output_grad data pool_size strides padding
            dilation ceil_mode layout out_layout)
       = OK (GetStructInfo data)
       ∧ Grad.infer GetStructInfo
           (Grad.avg_pool2d_backward output_grad data pool_size strides padding
              dilation ceil_mode layout out_layout)
         = OK (GetStructInfo data))
  ∧ (∀ output_grad x indices axis,
       Grad.infer GetStructInfo (Grad.take_backward output_grad x indices axis)
       = OK (GetStructInfo x)).
Proof.
  split; [|split; [|split; [|split; [|split; [|split]]]]].
  - intros v op args attrs adjoint_var e st gradient Hop. simpl. by rewrite Hop.
  - intros args partials st st' Hup. apply update_args_reads in Hup as [Hlen Htake].
    split; [|done]. destruct args as [|arg args]; [simpl; lia|].
    by apply (Hlen ltac:(done)).
  - intros args partials st Hlen. apply update_args_short. lia.
  - intros mod_ global_var require_grads. unfold differentiate.
    destruct (mod_ !! global_var) as [f|]; [|done].
    apply bind_not_mismatch; [apply check_preconditions_not_mismatch|].
    intros target _. apply bind_not_mismatch; [apply walk_not_mismatch|].
    intros st _. apply bind_not_mismatch; [|done].
    apply benign_not_mismatch, emit_param_adjoints_benign.
  - intros output_grad predictions targets [w|] reduction ignore_index; reflexivity.
  - intros. split; reflexivity.
  - intros. reflexivity.
Qed.

(** ** The pass succeeds on bodies of calls on variables *)

Lemma update_args_vars_total (xs : list Var) (partials : list Expr) (i : nat)
  (st : State) :
  (i + length xs ≤ length partials)%nat →
  is_OK (update_args (map EVar xs) partials i st) = true.
Proof.
  revert i st. induction xs as [|x xs IH]; intros i st Hlen; cbn [map update_args];
    [done|].
  simpl in Hlen. unfold at_index.
  destruct (lookup_lt_is_Some_2 partials i ltac:(lia)) as [p ->]. cbn [bind].
  pose proof (UpdateExprMap_Var_total x p st) as Htot.
  destruct (UpdateExprMap (EVar x) p st) as [st1|]; [|done]. cbn [bind].
  apply IH. lia.
Qed.

Lemma walk_calls_total (gradient_map : GradientMap) (target : Var)
  (bindings : list Binding) (st : State) :
  is_OK (target_seed target) = true →
  Forall (λ b : Binding, call_with_rule gradient_map b.2) bindings →
  is_OK (walk gradient_map target bindings st) = true.
Proof.
  intros Hseed Hall. revert st.
  induction Hall as [|[v value] bindings Hb _ IH]; intros st; cbn [walk]; [done|].
  assert (Hvisit : is_OK (VisitBinding gradient_map target (v, value) st) = true).
  { destruct Hb as (op & xs & attrs & gradient & Hvalue & Hop & Hlen).
    simpl in Hvalue. subst value.
    assert (Hprop : ∀ e s, is_OK (propagate gradient_map v (Call op (map EVar xs) attrs)
                                    (CreateAdjointVar v) e s) = true).
    { intros e s. simpl. rewrite Hop. apply update_args_vars_total. simpl. apply Hlen. }
    destruct (adjoint_expr_map_ st !! vid v) as [e|] eqn:Hv.
    - rewrite (VisitBinding_relevant _ _ _ _ _ _ Hv). apply Hprop.
    - destruct (decide (vid v = vid target)) as [Ht|Ht].
      + destruct (target_seed target) as [one|] eqn:Hone; [|done].
        rewrite (VisitBinding_target _ _ _ _ _ _ Hv Ht Hone). apply Hprop.
      + by rewrite (VisitBinding_skip _ _ _ _ _ Hv Ht). }
  destruct (VisitBinding gradient_map target (v, value) st) as [st1|]; [|done].
  cbn [bind]. apply IH.
Qed.

Lemma emit_param_adjoints_total (ps : list Var) (st : State) :
  Forall (λ p, is_OK (zero_skeleton (struct_info_ p)) = true) ps →
  is_OK (emit_param_adjoints ps st) = true.
Proof.
  intros Hall. revert st. induction Hall as [|p ps Hp _ IH]; intros st; simpl; [done|].
  unfold emit_param_adjoint.
  assert (He : ∃ e, match adjoint_expr_map_ st !! vid p with
                    | Some e => OK e
                    | None => zero_skeleton (struct_info_ p)
                    end = OK e).
  { destruct (adjoint_expr_map_ st !! vid p); [eauto|].
    destruct (zero_skeleton (struct_info_ p)); [eauto|done]. }
  destruct He as [e ->]. cbn [bind fst snd].
  specialize (IH (BindAndEmit (CreateAdjointVar p) e
                    (set_adjoint_var p (CreateAdjointVar p) st))).
  by destruct (emit_param_adjoints ps _).
Qed.

(** When the preconditions hold, every binding is a call on variables to an
    operator with a gradient rule, and the requested parameters have known
    shapes, [differentiate] returns a module. *)
Lemma differentiate_total_on_calls (gradient_map : GradientMap) (mod_ : IRModule)
  (global_var : string) (require_grads : option (list Var)) (f : Function)
  (target : Var) :
  mod_ !! global_var = Some f →
  check_preconditions f require_grads = OK target →
  Forall (λ b : Binding, call_with_rule gradient_map b.2) (body f) →
  Forall (λ p, is_OK (zero_skeleton (struct_info_ p)) = true)
    (default (params f) require_grads) →
  is_OK (differentiate gradient_map mod_ global_var require_grads) = true.
Proof.
  intros Hf Hpre Hbody Hparams. unfold differentiate. rewrite Hf, Hpre. cbn [bind].
  unfold reverse_walk.
  pose proof (walk_calls_total gradient_map target (rev (body f)) init_state) as Hwalk.
  destruct (walk gradient_map target (rev (body f)) init_state) as [st|].
  - cbn [bind]. pose proof (emit_param_adjoints_total _ st Hparams) as Hemit.
    by destruct (emit_param_adjoints _ st).
  - apply Hwalk.
    + apply scalar_float_seed. by apply check_preconditions_OK in Hpre as (_ & ? & _).
    + by apply Forall_rev.
Qed.


(** * Further properties of the code *)

(** ** op_common.h *)

(** X1: [GetCompletePadding2D] returns a padding exactly for the input
    lengths 1, 2 and 4; what it returns has length 4, is left as it is by a
    second completion, repeats the first two entries as the last two when it
    was completed from a shorter padding, and any other length is fatal. *)
Theorem GetCompletePadding2D_complete {PrimExpr} (padding : list PrimExpr) :
  match OpCommon.GetCompletePadding2D padding with
  | OK r =>
      (length padding ∈ [1; 2; 4]%nat)
      ∧ length r = 4%nat
      ∧ OpCommon.GetCompletePadding2D r = OK r
      ∧ (length padding ≠ 4%nat → r !! 2%nat = r !! 0%nat ∧ r !! 3%nat = r !! 1%nat)
      ∧ (∀ p, p ∈ r ↔ p ∈ padding)
  | Fatal e => (length padding ∉ [1; 2; 4]%nat) ∧ (∃ msg, e = DiagnosticError msg)
  end.
Proof.
  destruct padding as [|p0 [|p1 [|p2 [|p3 [|p4 l]]]]]; cbn.
  - split; [|eauto]. rewrite !elem_of_cons, elem_of_nil. lia.
  - repeat split; try done.
    + apply list_elem_of_here.
    + rewrite !elem_of_cons, elem_of_nil. tauto.
    + rewrite !elem_of_cons, elem_of_nil. tauto.
  - repeat split; try done.
    + apply list_elem_of_further, list_elem_of_here.
    + rewrite !elem_of_cons, elem_of_nil. tauto.
    + rewrite !elem_of_cons, elem_of_nil. tauto.
  - split; [|eauto]. rewrite !elem_of_cons, elem_of_nil. lia.
  - repeat split; try done.
    do 2 apply list_elem_of_further. apply list_elem_of_here.
  - split; [|eauto]. rewrite !elem_of_cons, elem_of_nil. lia.
Qed.

(** X2: [InferBinaryArithOpOutDtype] does not depend on the order of its
    operands as far as success and the dtype returned go.  It returns [Void]
    as soon as one dtype is unknown, whatever the other is; it is fatal
    exactly when both dtypes are known and differ; otherwise the dtype it
    returns is the dtype of both operands. *)
Theorem InferBinaryArithOpOutDtype_symmetric (x1_sinfo x2_sinfo : TensorStructInfo) :
  match OpCommon.InferBinaryArithOpOutDtype x1_sinfo x2_sinfo with
  | OK d =>
      OpCommon.InferBinaryArithOpOutDtype x2_sinfo x1_sinfo = OK d
      ∧ (if IsUnknownDtype x1_sinfo || IsUnknownDtype x2_sinfo
         then d = DataType_Void
         else d = dtype x1_sinfo ∧ d = dtype x2_sinfo)
  | Fatal e =>
      is_OK (OpCommon.InferBinaryArithOpOutDtype x2_sinfo x1_sinfo) = false
      ∧ IsUnknownDtype x1_sinfo = false
      ∧ IsUnknownDtype x2_sinfo = false
      ∧ dtype x1_sinfo ≠ dtype x2_sinfo
      ∧ ∃ msg, e = DiagnosticError msg
  end.
Proof.
  unfold OpCommon.InferBinaryArithOpOutDtype.
  destruct (IsUnknownDtype x1_sinfo) eqn:H1, (IsUnknownDtype x2_sinfo) eqn:H2;
    cbn; try done.
  repeat case_bool_decide; cbn; try done; try congruence.
  - split; [congruence|]. done.
  - repeat split; try done. eauto.
Qed.

Lemma registered_unary (GetInput : Expr → Result (list TensorStructInfo))
  (name : string) (flag : bool) :
  (name, flag) ∈ Unary.unary_arith_ops →
  Unary.FInferStructInfo GetInput ("relax." +:+ name)
  = Some (Unary.InferStructInfoUnary GetInput flag).
Proof.
  unfold Unary.unary_arith_ops. intros Hin.
  repeat (apply elem_of_cons in Hin as [Hin|Hin];
          [inversion Hin; subst; reflexivity|]).
  by apply elem_of_nil in Hin.
Qed.



(** X4: an operator listed without the float requirement ([abs], [ceil],
    [floor], [negative], [round], [sign]) accepts every dtype: whenever the
    input of the call has a tensor struct info, the inference function of
    the operator returns that struct info, also for an integer dtype. *)
Theorem unary_op_any_dtype (GetInput : Expr → Result (list TensorStructInfo))
  (name : string) (x : Expr) (input_sinfo : TensorStructInfo) :
  (name, false) ∈ Unary.unary_arith_ops →
  Unary.GetUnaryInputTensorStructInfo GetInput (OpCommon.unary_op name x)
  = OK input_sinfo →
  ∃ infer,
    Unary.FInferStructInfo GetInput (Unary.op_name (OpCommon.unary_op name x))
    = Some infer
    ∧ infer (OpCommon.unary_op name x) = OK (TensorSI input_sinfo).
Proof.
  intros Hin Hget. eexists. split; [by apply registered_unary|].
  unfold Unary.InferStructInfoUnary. by rewrite Hget.
Qed.

Lemma unary_op_any_dtype_witness :
  ∃ infer,
    Unary.FInferStructInfo Examples.int32_input
      (Unary.op_name (OpCommon.unary_op "abs" (EVar Examples.x)))
    = Some infer
    ∧ infer (OpCommon.unary_op "abs" (EVar Examples.x))
      = OK (TensorSI (mkTensorStructInfo (Some [5; 5]%Z) (DataType_Int 32) 2)).
Proof.
  apply (unary_op_any_dtype Examples.int32_input "abs" (EVar Examples.x)).
  - unfold Unary.unary_arith_ops. repeat constructor.
  - reflexivity.
Defined.

(** ** grad.cc *)

(** X5: the constructors of the four gradient operators pass as many
    arguments as the operator is registered with in [set_num_inputs], except
    [nll_loss_backward] without weights, which passes three arguments to an
    operator registered with four inputs. *)
Theorem backward_calls_num_inputs (GetStructInfo : Expr → StructInfo)
  (output_grad a b : Expr) (weights : option Expr) (reduction : string)
  (ignore_index : Z) (pool_size strides padding dilation : list Z)
  (ceil_mode : bool) (layout : string) (out_layout : option string)
  (axis : option Z) :
  let nll := Grad.nll_loss_backward output_grad a b weights reduction ignore_index in
  let maxp := Grad.max_pool2d_backward output_grad a pool_size strides padding
                dilation ceil_mode layout out_layout in
  let avgp := Grad.avg_pool2d_backward output_grad a pool_size strides padding
                dilation ceil_mode layout out_layout in
  let take := Grad.take_backward output_grad a b axis in
  GradRegistry.num_inputs (Unary.op_name nll) = Some 4%nat
  ∧ length (AD.call_args nll) = match weights with Some _ => 4%nat | None => 3%nat end
  ∧ GradRegistry.num_inputs (Unary.op_name maxp) = Some (length (AD.call_args maxp))
  ∧ GradRegistry.num_inputs (Unary.op_name avgp) = Some (length (AD.call_args avgp))
  ∧ GradRegistry.num_inputs (Unary.op_name take) = Some (length (AD.call_args take))
  ∧ (∀ call, call ∈ [nll; maxp; avgp; take] →
       is_Some (Grad.FInferStructInfo GetStructInfo (Unary.op_name call))
       ∧ is_Some (GradRegistry.num_inputs (Unary.op_name call))).
Proof.
  cbn zeta. destruct weights; repeat split; try reflexivity.
  all: match goal with H : _ ∈ _ |- _ =>
         rewrite !elem_of_cons, elem_of_nil in H;
         destruct H as [->|[->|[->|[->|[]]]]]; cbn; eauto
       end.
Qed.

(** ** legalize.cc *)

Lemma know_all_shape_of_true (K : StructInfo → bool) (G : Expr → StructInfo)
  (visited_call : Expr) :
  Legalize.know_all_shape_of K G true visited_call = true.
Proof.
  unfold Legalize.know_all_shape_of.
  assert (Hfold : ∀ l, foldl (λ know arg, know || K (G arg)) true l = true).
  { induction l as [|x l IH]; [done|]. cbn. exact IH. }
  by rewrite Hfold.
Qed.

(** X6: [know_all_shape] starts at [true] and is only or-ed with the shape
    checks, so what [VisitExpr_] does with a call does not depend on
    [KnowAllShapeValues]: a customized legalization function of the operator
    is applied if there is one (also for an operator without a builtin one),
    otherwise the builtin one if there is one, otherwise the call is
    returned as it is.  The warning is logged exactly when the operator has
    no builtin function and is not [relax.call_tir], also when a customized
    function legalizes the call. *)
Theorem VisitCall_legalizes {BlockBuilder : Type}
  (legalize_map : string → option (Legalize.FRelaxLegalize BlockBuilder))
  (cmap_ : option (string → option (Legalize.FRelaxLegalize BlockBuilder)))
  (KnowAllShapeValues : StructInfo → bool) (GetStructInfo : Expr → StructInfo)
  (builder : BlockBuilder) (op : string) (args : list Expr) (attrs : Attrs) :
  let call := Call op args attrs in
  let v := Legalize.VisitCall BlockBuilder legalize_map cmap_ KnowAllShapeValues
             GetStructInfo builder call in
  (Legalize.builder_ _ v, Legalize.result _ v)
  = match mbind (λ m, m op) cmap_ with
    | Some customized => customized builder call
    | None =>
        match legalize_map op with
        | Some builtin => builtin builder call
        | None => (builder, call)
        end
    end
  ∧ (Legalize.warnings _ v = [] ↔ is_Some (legalize_map op) ∨ op = "relax.call_tir").
Proof.
  cbn zeta. unfold Legalize.VisitCall.
  rewrite know_all_shape_of_true.
  destruct cmap_ as [m|]; cbn; [destruct (m op) as [f|]|];
    destruct (legalize_map op) as [g|]; cbn.
  all: repeat match goal with
              | |- context [let '(_, _) := ?t in _] => destruct t
              end; cbn.
  all: split; [reflexivity|].
  all: try case_bool_decide; split; intros Hx; try done; eauto.
  all: try (destruct Hx as [[? [=]]|Hx]; done).
  all: right; destruct (decide (op = "relax.call_tir")); done.
Qed.

(** ** shape_lower.cc *)

Section SlotFacts.
Context `{Countable PrimExpr}.
Implicit Types (acc : Z * gmap PrimExpr Z) (e : PrimExpr).

Lemma assign_slot_dense acc e :
  ShapeLower.dense acc → ShapeLower.dense (ShapeLower.assign_slot acc e).
Proof.
  destruct acc as [cnt ret]. unfold ShapeLower.dense, ShapeLower.assign_slot.
  intros (Hsz & Hr & Hi & Hs).
  destruct (ret !! e) as [j|] eqn:He; [done|].
  split. { rewrite map_size_insert_None by done. lia. }
  split.
  { intros e' i. destruct (decide (e = e')) as [<-|Hne].
    - rewrite lookup_insert_eq. intros [= <-]. lia.
    - rewrite lookup_insert_ne by done. intros Hl. apply Hr in Hl. lia. }
  split.
  { intros e1 e2 i.
    destruct (decide (e = e1)) as [<-|H1], (decide (e = e2)) as [<-|H2];
      rewrite ?lookup_insert_eq, ?lookup_insert_ne by done; try done.
    - intros [= <-] Hl. apply Hr in Hl. lia.
    - intros Hl [= <-]. apply Hr in Hl. lia.
    - apply Hi. }
  intros i Hi'. destruct (decide (i = cnt)) as [->|Hne].
  - exists e. by rewrite lookup_insert_eq.
  - destruct (Hs i ltac:(lia)) as [e' He']. exists e'.
    rewrite lookup_insert_ne; [done|]. intros <-. congruence.
Qed.

Lemma assign_slots_dense (l : list PrimExpr) acc :
  ShapeLower.dense acc → ShapeLower.dense (foldl ShapeLower.assign_slot acc l).
Proof.
  revert acc. induction l as [|e l IH]; intros acc Hd; [done|].
  cbn. by apply IH, assign_slot_dense.
Qed.

Lemma visit_shapes_concat (shapes : list (list PrimExpr)) acc :
  foldl ShapeLower.visit_shape acc shapes
  = foldl ShapeLower.assign_slot acc (concat shapes).
Proof.
  revert acc. induction shapes as [|values shapes IH]; intros acc; [done|].
  cbn. by rewrite foldl_app, IH.
Qed.

Lemma assign_slot_keeps acc e e' i :
  acc.2 !! e' = Some i → (ShapeLower.assign_slot acc e).2 !! e' = Some i.
Proof.
  destruct acc as [cnt ret]. cbn. intros Hl.
  destruct (ret !! e) eqn:He; cbn; [done|].
  rewrite lookup_insert_ne; [done|]. intros <-. congruence.
Qed.

Lemma assign_slots_keep (l : list PrimExpr) acc e' i :
  acc.2 !! e' = Some i → (foldl ShapeLower.assign_slot acc l).2 !! e' = Some i.
Proof.
  revert acc. induction l as [|e l IH]; intros acc Hl; [done|].
  cbn. by apply IH, assign_slot_keeps.
Qed.

Lemma assign_slots_dom (l : list PrimExpr) acc e' :
  is_Some ((foldl ShapeLower.assign_slot acc l).2 !! e')
  ↔ is_Some (acc.2 !! e') ∨ e' ∈ l.
Proof.
  revert acc. induction l as [|e l IH]; intros acc.
  - cbn. rewrite elem_of_nil. tauto.
  - cbn [foldl]. rewrite IH, elem_of_cons. destruct acc as [cnt ret].
    unfold ShapeLower.assign_slot. destruct (ret !! e) as [j|] eqn:He; cbn.
    + split; [tauto|]. intros [Hs|[->|Hin]]; eauto.
    + destruct (decide (e = e')) as [<-|Hne].
      * rewrite lookup_insert_eq. split; eauto.
      * rewrite lookup_insert_ne by done. split; [tauto|].
        intros [Hs|[->|Hin]]; eauto. done.
Qed.

Lemma elem_of_concat_2 (shapes : list (list PrimExpr)) (values : list PrimExpr) e :
  e ∈ values → values ∈ shapes → e ∈ concat shapes.
Proof.
  intros He. induction shapes as [|l shapes IH]; intros Hv.
  - by apply elem_of_nil in Hv.
  - cbn. apply elem_of_app. apply elem_of_cons in Hv as [<-|Hv]; eauto.
Qed.

Lemma PrepareExpr2Slot_dense (shapes : list (list PrimExpr)) :
  ShapeLower.dense (foldl ShapeLower.visit_shape (0%Z, ∅) shapes).
Proof.
  rewrite visit_shapes_concat. apply assign_slots_dense.
  unfold ShapeLower.dense. rewrite map_size_empty. split; [done|].
  split; [intros e i; by rewrite lookup_empty|].
  split; [intros e1 e2 i; by rewrite lookup_empty|]. intros i. lia.
Qed.

Lemma PrepareExpr2Slot_dom (shapes : list (list PrimExpr)) e :
  is_Some (ShapeLower.PrepareExpr2Slot shapes !! e) ↔ e ∈ concat shapes.
Proof.
  unfold ShapeLower.PrepareExpr2Slot. rewrite visit_shapes_concat, assign_slots_dom.
  cbn. rewrite lookup_empty. split; [intros [[? [=]]|?]; done | eauto].
Qed.

(** X7: the slots that [PrepareExpr2Slot] hands out are the numbers from 0
    up to the heap size that [Lower] allocates: every slot is below the heap
    size, two different dimensions never share a slot, and no slot below the
    heap size is left unused. *)
Theorem PrepareExpr2Slot_slots (shapes : list (list PrimExpr)) :
  let expr2slot_ := ShapeLower.PrepareExpr2Slot shapes in
  (∀ e i, expr2slot_ !! e = Some i → (0 ≤ i < ShapeLower.heap_size expr2slot_)%Z)
  ∧ (∀ e1 e2 i, expr2slot_ !! e1 = Some i → expr2slot_ !! e2 = Some i → e1 = e2)
  ∧ (∀ i, (0 ≤ i < ShapeLower.heap_size expr2slot_)%Z → ∃ e, expr2slot_ !! e = Some i).
Proof.
  cbn zeta. unfold ShapeLower.PrepareExpr2Slot, ShapeLower.heap_size.
  pose proof (PrepareExpr2Slot_dense shapes) as Hd.
  destruct (foldl ShapeLower.visit_shape (0%Z, ∅) shapes) as [cnt ret].
  destruct Hd as (-> & Hr & Hi & Hs). cbn. eauto.
Qed.

Lemma slot_indices_spec (m : gmap PrimExpr Z) (values : list PrimExpr) :
  match ShapeLower.slot_indices m values with
  | OK indices => Forall2 (λ e i, m !! e = Some i) values indices
  | Fatal err => err = IndexOutOfRange ∧ ∃ e, e ∈ values ∧ m !! e = None
  end.
Proof.
  induction values as [|e values IH]; cbn; [constructor|].
  unfold ShapeLower.at_slot. destruct (m !! e) as [i|] eqn:He; cbn.
  - destruct (ShapeLower.slot_indices m values) as [indices|err]; cbn.
    + by constructor.
    + destruct IH as [-> (e' & Hin & Hn)]. split; [done|].
      exists e'. split; [by apply list_elem_of_further|done].
  - split; [done|]. exists e. split; [apply list_elem_of_here|done].
Qed.

(** X8: with the map of [PrepareExpr2Slot], the index loop of
    [VisitMatchShape] and of [VisitExpr_] for a [ShapeExprNode] returns the
    slot of every value when each value is a dimension of some [ShapeExpr]
    that was visited, and otherwise raises at the first lookup of a missing
    key.  In particular it succeeds on every visited [ShapeExpr]. *)
Theorem slot_indices_prepared (shapes : list (list PrimExpr)) (values : list PrimExpr) :
  let expr2slot_ := ShapeLower.PrepareExpr2Slot shapes in
  match ShapeLower.slot_indices expr2slot_ values with
  | OK indices =>
      Forall (λ e, e ∈ concat shapes) values
      ∧ Forall2 (λ e i, expr2slot_ !! e = Some i) values indices
  | Fatal err =>
      err = IndexOutOfRange ∧ (∃ e, e ∈ values ∧ e ∉ concat shapes)
      ∧ values ∉ shapes
  end.
Proof.
  cbn zeta.
  pose proof (slot_indices_spec (ShapeLower.PrepareExpr2Slot shapes) values) as Hs.
  destruct (ShapeLower.slot_indices (ShapeLower.PrepareExpr2Slot shapes) values)
    as [indices|err].
  - split; [|done]. apply Forall_forall. intros e Hin.
    apply PrepareExpr2Slot_dom.
    apply list_elem_of_lookup in Hin as [k Hk].
    destruct (Forall2_lookup_l _ _ _ _ _ Hs Hk) as (i & _ & Hi). eauto.
  - destruct Hs as [-> (e & Hin & Hn)]. split; [done|].
    assert (Hout : e ∉ concat shapes).
    { intros Hc. apply PrepareExpr2Slot_dom in Hc as [? Hc]. congruence. }
    split; [eauto|]. intros Hv. apply Hout.
    by apply (elem_of_concat_2 shapes values).
Qed.

(** X9: slots are numbered in the order of first occurrence: a dimension
    gets as its slot the number of distinct dimensions met before it, which
    is the heap size of the dimensions before its first occurrence. *)
Theorem PrepareExpr2Slot_first_occurrence (shapes : list (list PrimExpr))
  (before after : list PrimExpr) (e : PrimExpr) :
  concat shapes = before ++ e :: after →
  e ∉ before →
  ShapeLower.PrepareExpr2Slot shapes !! e
  = Some (ShapeLower.heap_size (ShapeLower.PrepareExpr2Slot [before])).
Proof.
  intros Hc Hfresh. unfold ShapeLower.PrepareExpr2Slot, ShapeLower.heap_size.
  rewrite !visit_shapes_concat, Hc, foldl_app. cbn [concat]. rewrite app_nil_r.
  pose proof (assign_slots_dense before (0%Z, ∅)) as Hd.
  pose proof (assign_slots_dom before (0%Z, ∅) e) as Hdom.
  destruct (foldl ShapeLower.assign_slot (0%Z, ∅) before) as [cnt ret] eqn:Hb.
  cbn [foldl]. apply assign_slots_keep.
  cbn in Hdom. rewrite lookup_empty in Hdom.
  assert (Hn : ret !! e = None).
  { destruct (ret !! e) eqn:He; [|done]. exfalso.
    destruct Hdom as [[[? [=]]|Hin] _]; eauto. }
  cbn. rewrite Hn. cbn. rewrite lookup_insert_eq. f_equal.
  destruct Hd as (-> & _); [|done].
  unfold ShapeLower.dense. rewrite map_size_empty. split; [done|].
  split; [intros ? ?; by rewrite lookup_empty|].
  split; [intros ? ? ?; by rewrite lookup_empty|]. intros i. lia.
Qed.

(** X10: the slots do not depend on what is visited later: the map for a
    longer sequence of [ShapeExpr] nodes extends the map for a prefix of it,
    and only the concatenation of the dimensions matters, not how they are
    grouped into [ShapeExpr] nodes. *)
Theorem PrepareExpr2Slot_extends (shapes more : list (list PrimExpr)) :
  ShapeLower.PrepareExpr2Slot shapes ⊆ ShapeLower.PrepareExpr2Slot (shapes ++ more)
  ∧ ShapeLower.PrepareExpr2Slot shapes = ShapeLower.PrepareExpr2Slot [concat shapes].
Proof.
  split.
  - apply map_subseteq_spec. intros e i Hl.
    unfold ShapeLower.PrepareExpr2Slot in *.
    rewrite foldl_app, visit_shapes_concat. by apply assign_slots_keep.
  - unfold ShapeLower.PrepareExpr2Slot. rewrite !visit_shapes_concat.
    cbn [concat]. by rewrite app_nil_r.
Qed.
End SlotFacts.

Lemma PrepareExpr2Slot_first_occurrence_witness :
  ShapeLower.PrepareExpr2Slot [["n"; "m"]; ["m"; "k"]] !! "k"
  = Some (ShapeLower.heap_size (ShapeLower.PrepareExpr2Slot [["n"; "m"; "m"]])).
Proof.
  apply (PrepareExpr2Slot_first_occurrence [["n"; "m"]; ["m"; "k"]]
           ["n"; "m"; "m"] [] "k").
  - reflexivity.
  - rewrite !elem_of_cons, elem_of_nil. intros [?|[?|[?|[]]]]; discriminate.
Defined.

(** ** The helpers of the Gradient pass (AD_Draft.md) *)

Import Walk.

Lemma Addition_error memo (base increment : Expr) (e : ErrorKind) :
  Addition memo base increment = Fatal e → e = InternalInvariantViolation.
Proof.
  revert base e.
  induction increment as [v|incs IH|t i _|op args attrs _|vs|c] using Expr_nested_ind;
    intros base e; try discriminate.
  rewrite Addition_Tuple. destruct base as [|bases| | | |]; try (by intros [= <-]).
  destruct (bool_decide _); [|by intros [= <-]].
  destruct (Addition_loop memo incs bases) as [ret|e'] eqn:Hloop; [discriminate|].
  cbn. intros [= <-]. clear -IH Hloop. revert bases Hloop.
  induction IH as [|i incs Hi _ IHl]; intros [|b bases]; cbn; try discriminate.
  destruct (Addition memo b i) as [r|e1] eqn:Hr; cbn.
  - destruct (Addition_loop memo incs bases) as [rs|e2] eqn:Hrs; cbn; [discriminate|].
    intros [= <-]. by apply (IHl bases).
  - intros [= <-]. by apply (Hi b).
Qed.

Lemma Addition_loop_lookup memo (incs bases rs : list Expr) :
  length bases = length incs →
  Addition_loop memo incs bases = OK rs →
  length rs = length incs
  ∧ ∀ i inc, incs !! i = Some inc →
      ∃ b r, bases !! i = Some b ∧ rs !! i = Some r ∧ Addition memo b inc = OK r.
Proof.
  revert bases rs. induction incs as [|x incs IH]; intros [|b bases] rs; cbn;
    try discriminate.
  - intros _ [= <-]. split; [done|]. intros i inc. by rewrite lookup_nil.
  - intros [= Hlen] (r & Hr & (rs' & Hrs & [= <-])%bind_OK)%bind_OK.
    destruct (IH bases rs' Hlen Hrs) as [Hl Hall]. split; [cbn; by rewrite Hl|].
    intros [|i] inc; cbn.
    + intros [= <-]. eauto.
    + apply Hall.
Qed.

Lemma Addition_along memo (path : list nat) (base increment r part : Expr) :
  Addition memo base increment = OK r →
  sub increment path = Some part →
  ∃ b s, sub base path = Some b ∧ sub r path = Some s
         ∧ Addition memo b part = OK s.
Proof.
  revert base increment r. induction path as [|i path IH]; intros base increment r.
  - cbn. intros Hadd [= <-]. eauto.
  - destruct increment as [|incs| | | |]; try discriminate.
    rewrite Addition_Tuple. destruct base as [|bases| | | |]; try discriminate.
    case_bool_decide as Hlen; [|discriminate].
    intros (ret & Hloop & [= <-])%bind_OK. cbn.
    destruct (incs !! i) as [f|] eqn:Hf; [|discriminate]. intros Hsub.
    destruct (Addition_loop_lookup memo incs bases ret Hlen Hloop) as [_ Hall].
    destruct (Hall i f Hf) as (b & s & -> & -> & Hadd).
    by apply (IH b f s).
Qed.

(** X11: [Addition] adds along the tuples of the increment.  When it
    returns, at every path to a part of the increment that is not a tuple the
    result holds [relax.add] of the part of the base at that path and of the
    part of the increment, with the increment replaced by its variable where
    [adjoint_expr_to_var_] has one; at every path to a tuple of the increment
    the base and the result hold tuples of the same length. *)
Theorem Addition_leafwise memo (base increment r : Expr) :
  Addition memo base increment = OK r →
  (∀ path leaf, sub increment path = Some leaf → is_Tuple leaf = false →
     ∃ b, sub base path = Some b
          ∧ sub r path
            = Some (Call "relax.add" [b; ReplaceExprByVar memo leaf] NoAttrs))
  ∧ (∀ path incs, sub increment path = Some (Tuple incs) →
       ∃ bases rs, sub base path = Some (Tuple bases)
                   ∧ sub r path = Some (Tuple rs)
                   ∧ length bases = length incs ∧ length rs = length incs).
Proof.
  intros Hadd. split.
  - intros path leaf Hsub Hleaf.
    destruct (Addition_along memo path base increment r leaf Hadd Hsub)
      as (b & s & Hb & Hs & Hbs).
    exists b. split; [done|]. rewrite Hs. f_equal.
    rewrite Addition_not_Tuple in Hbs; [congruence|].
    intros incs ->. discriminate.
  - intros path incs Hsub.
    destruct (Addition_along memo path base increment r (Tuple incs) Hadd Hsub)
      as (b & s & Hb & Hs & Hbs).
    rewrite Addition_Tuple in Hbs. destruct b as [|bases| | | |]; try discriminate.
    case_bool_decide as Hlen; [|discriminate].
    apply bind_OK in Hbs as (ret & Hloop & [= <-]).
    exists bases, ret. repeat split; try done.
    by apply (Addition_loop_lookup memo incs bases ret).
Qed.

Lemma Addition_leafwise_witness :
  let zeros := Call "relax.zeros" [ShapeExpr [5; 5]%Z] (InitAttrs Examples.f32) in
  let a := EVar Examples.a in
  let b := EVar Examples.b in
  let r := Tuple [Call "relax.add" [zeros; a] NoAttrs;
                  Tuple [Call "relax.add" [zeros; b] NoAttrs]] in
  (∀ path leaf, sub (Tuple [a; Tuple [b]]) path = Some leaf → is_Tuple leaf = false →
     ∃ x, sub (Tuple [zeros; Tuple [zeros]]) path = Some x
          ∧ sub r path = Some (Call "relax.add" [x; ReplaceExprByVar [] leaf] NoAttrs))
  ∧ (∀ path incs, sub (Tuple [a; Tuple [b]]) path = Some (Tuple incs) →
       ∃ bases rs, sub (Tuple [zeros; Tuple [zeros]]) path = Some (Tuple bases)
                   ∧ sub r path = Some (Tuple rs)
                   ∧ length bases = length incs ∧ length rs = length incs).
Proof.
  cbn zeta.
  apply (Addition_leafwise []
           (Tuple [Call "relax.zeros" [ShapeExpr [5; 5]%Z] (InitAttrs Examples.f32);
                   Tuple [Call "relax.zeros" [ShapeExpr [5; 5]%Z]
                            (InitAttrs Examples.f32)]])
           (Tuple [EVar Examples.a; Tuple [EVar Examples.b]])).
  reflexivity.
Defined.

Lemma AdditionInTuple_loop_insert memo (i : nat) (fields : list Expr) (pos : nat)
  (increment : Expr) :
  AdditionInTuple_loop memo i fields pos increment
  = if decide (i ≤ pos)%nat then
      match fields !! (pos - i)%nat with
      | Some x => do r <- Addition memo x increment;
                  OK (<[(pos - i)%nat := r]> fields)
      | None => OK fields
      end
    else OK fields.
Proof.
  revert i. induction fields as [|x l IH]; intros i.
  - cbn. by destruct (decide _).
  - cbn [AdditionInTuple_loop]. rewrite IH.
    destruct (decide (i ≤ pos)%nat) as [Hle|Hgt].
    + destruct (decide (i = pos)) as [->|Hne].
      * rewrite bool_decide_eq_true_2 by done. rewrite Nat.sub_diag. cbn.
        destruct (decide (S pos ≤ pos)%nat); [lia|].
        by destruct (Addition memo x increment).
      * rewrite bool_decide_eq_false_2 by done.
        destruct (decide (S i ≤ pos)%nat); [|lia].
        replace (pos - i)%nat with (S (pos - S i)) by lia. cbn.
        destruct (l !! (pos - S i)%nat) as [y|]; cbn; [|done].
        by destruct (Addition memo y increment).
    + rewrite bool_decide_eq_false_2 by lia.
      destruct (decide (S i ≤ pos)%nat); [lia|]. done.
Qed.

(** X12: [AdditionInTuple] is the update of one slot of the tuple: slot
    [pos] becomes [Addition] of its old content and the increment, and the
    call fails only if that [Addition] does.  A position that is not a slot
    of the tuple is not an error: the tuple is returned as it is and the
    increment is dropped. *)
Theorem AdditionInTuple_update memo (fields : list Expr) (pos : nat)
  (increment : Expr) :
  AdditionInTuple memo (Tuple fields) pos increment
  = match fields !! pos with
    | Some x => do r <- Addition memo x increment;
                OK (Tuple (<[pos := r]> fields))
    | None => OK (Tuple fields)
    end.
Proof.
  unfold AdditionInTuple. rewrite AdditionInTuple_loop_insert.
  destruct (decide (0 ≤ pos)%nat); [|lia]. rewrite Nat.sub_0_r.
  destruct (fields !! pos) as [x|]; [|done].
  by destruct (Addition memo x increment).
Qed.

Lemma list_insert_swap {A} (l : list A) (j k : nat) (x y : A) :
  j ≠ k → <[k := y]> (<[j := x]> l) = <[j := x]> (<[k := y]> l).
Proof.
  intros Hjk. apply list_eq. intros i.
  rewrite !list_lookup_insert, !length_insert.
  repeat case_decide; try done; exfalso; lia.
Qed.

(** X13: two updates of different slots of a tuple by [AdditionInTuple] give
    the same result in either order, errors included. *)
Theorem AdditionInTuple_commute memo (tuple : Expr) (j k : nat) (a b : Expr) :
  j ≠ k →
  (do t1 <- AdditionInTuple memo tuple j a; AdditionInTuple memo t1 k b)
  = (do t1 <- AdditionInTuple memo tuple k b; AdditionInTuple memo t1 j a).
Proof.
  intros Hjk. destruct tuple as [|fields| | | |]; try reflexivity.
  assert (Hstep : ∀ fs p inc,
    AdditionInTuple memo (Tuple fs) p inc
    = match fs !! p with
      | Some x => do r <- Addition memo x inc; OK (Tuple (<[p := r]> fs))
      | None => OK (Tuple fs)
      end).
  { intros fs p inc. unfold AdditionInTuple. rewrite AdditionInTuple_loop_insert.
    destruct (decide (0 ≤ p)%nat); [|lia]. rewrite Nat.sub_0_r.
    destruct (fs !! p) as [x|]; [|done]. by destruct (Addition memo x inc). }
  rewrite (Hstep fields j a), (Hstep fields k b).
  destruct (fields !! j) as [xj|] eqn:Hj, (fields !! k) as [xk|] eqn:Hk; cbn [bind].
  - destruct (Addition memo xj a) as [r|e1] eqn:Hr,
             (Addition memo xk b) as [s|e2] eqn:Hs; cbn [bind];
      rewrite ?Hstep, ?list_lookup_insert_ne, ?Hj, ?Hk by done; cbn [bind];
      rewrite ?Hr, ?Hs; cbn [bind]; try done.
    + by rewrite list_insert_swap.
    + apply Addition_error in Hr, Hs. congruence.
  - destruct (Addition memo xj a) as [r|e1] eqn:Hr; cbn [bind];
      rewrite ?Hstep, ?list_lookup_insert_ne, ?Hj, ?Hk by done; cbn [bind];
      rewrite ?Hr; done.
  - destruct (Addition memo xk b) as [s|e2] eqn:Hs; cbn [bind];
      rewrite ?Hstep, ?list_lookup_insert_ne, ?Hj, ?Hk by done; cbn [bind];
      rewrite ?Hs; done.
  - by rewrite !Hstep, Hj, Hk.
Qed.

Lemma AdditionInTuple_commute_witness :
  (do t1 <- AdditionInTuple [] (Tuple [EVar Examples.a; EVar Examples.b]) 0
              (EVar Examples.x);
   AdditionInTuple [] t1 1 (EVar Examples.y))
  = (do t1 <- AdditionInTuple [] (Tuple [EVar Examples.a; EVar Examples.b]) 1
                (EVar Examples.y);
     AdditionInTuple [] t1 0 (EVar Examples.x)).
Proof.
  apply (AdditionInTuple_commute [] (Tuple [EVar Examples.a; EVar Examples.b])
           0 1 (EVar Examples.x) (EVar Examples.y)).
  lia.
Defined.

Lemma BuildEmptySlot_known (s : StructInfo) :
  is_OK (BuildEmptySlot s) = shapes_known s.
Proof.
  induction s as [|t|fields IH] using StructInfo_nested_ind; try reflexivity.
  - cbn. by destruct (shape t).
  - rewrite BuildEmptySlot_Tuple. cbn [shapes_known].
    transitivity (is_OK (BuildEmptySlots fields)).
    { by destruct (BuildEmptySlots fields). }
    induction IH as [|f l Hf _ IHl]; [reflexivity|]. cbn [BuildEmptySlots].
    rewrite <- Hf, <- IHl.
    destruct (BuildEmptySlot f); [|reflexivity]. cbn.
    by destruct (BuildEmptySlots l).
Qed.

Lemma BuildEmptySlot_closed (s : StructInfo) (z : Expr) :
  BuildEmptySlot s = OK z → count_add z = 0%nat ∧ ∀ x, occurrences x z = 0%nat.
Proof.
  revert z. induction s as [|t|fields IH] using StructInfo_nested_ind; intros z.
  - discriminate.
  - cbn. destruct (shape t); [|discriminate]. by intros [= <-].
  - rewrite BuildEmptySlot_Tuple. intros (es & Hes & [= <-])%bind_OK.
    revert es Hes. induction IH as [|f l Hf _ IHl]; intros es; cbn [BuildEmptySlots].
    + by intros [= <-].
    + intros (e & He & (es' & Hes' & [= <-])%bind_OK)%bind_OK.
      destruct (Hf e He) as [Hc Ho], (IHl es' Hes') as [Hc' Ho'].
      split.
      * change (count_add (Tuple (e :: es')))
          with (count_add e + count_add (Tuple es'))%nat. lia.
      * intros x. rewrite occurrences_Tuple_cons, Ho, Ho'. done.
Qed.

Lemma BuildEmptySlot_error (s : StructInfo) (e : ErrorKind) :
  BuildEmptySlot s = Fatal e → e = InternalInvariantViolation.
Proof.
  revert e. induction s as [|t|fields IH] using StructInfo_nested_ind; intros e.
  - by intros [= <-].
  - cbn. destruct (shape t); [discriminate|]. by intros [= <-].
  - rewrite BuildEmptySlot_Tuple.
    destruct (BuildEmptySlots fields) as [es|e'] eqn:Hes; [discriminate|].
    cbn. intros [= <-]. revert Hes.
    induction IH as [|f l Hf _ IHl]; cbn [BuildEmptySlots]; [discriminate|].
    destruct (BuildEmptySlot f) as [x|e1] eqn:Hx; cbn.
    + destruct (BuildEmptySlots l) as [xs|e2]; cbn; [discriminate|].
      intros [= <-]. by apply IHl.
    + intros [= <-]. by apply Hf.
Qed.

(** X14: [BuildEmptyNestedTupleExpr] returns a skeleton exactly for a tuple
    struct info all of whose leaves are tensors of known shape, the empty
    tuple included; any other struct info fails its assertion.  The skeleton
    refers to no variable and contains no [relax.add]. *)
Theorem BuildEmptyNestedTupleExpr_known (s : StructInfo) :
  match BuildEmptyNestedTupleExpr s with
  | OK z =>
      is_TupleStructInfo s = true ∧ shapes_known s = true
      ∧ count_add z = 0%nat ∧ (∀ x, occurrences x z = 0%nat)
  | Fatal e =>
      e = InternalInvariantViolation
      ∧ is_TupleStructInfo s && shapes_known s = false
  end.
Proof.
  destruct s as [|t|fields]; try (cbn; done).
  unfold BuildEmptyNestedTupleExpr.
  pose proof (BuildEmptySlot_known (TupleStructInfo fields)) as Hk.
  destruct (BuildEmptySlot (TupleStructInfo fields)) as [z|e] eqn:Hz.
  - split; [done|]. split; [done|].
    by apply (BuildEmptySlot_closed (TupleStructInfo fields) z).
  - cbn [is_TupleStructInfo andb]. split; [|done].
    by apply (BuildEmptySlot_error (TupleStructInfo fields)).
Qed.

(** ** What the loop of the pass keeps *)

Lemma keeps_refl (st : State) : keeps st st.
Proof. by repeat split. Qed.

Lemma keeps_trans (st1 st2 st3 : State) : keeps st1 st2 → keeps st2 st3 → keeps st1 st3.
Proof.
  intros [(Hp & Hf & Hk & Hm) Hs] [(Hp' & Hf' & Hk' & Hm') Hs'].
  split; [|by auto]. repeat split.
  - by transitivity (emitted st2).
  - lia.
  - auto.
  - auto.
Qed.

Lemma keeps_set_adjoint_var (v a : Var) (st : State) :
  keeps st (set_adjoint_var v a st).
Proof. by repeat split. Qed.

Lemma keeps_set_adjoint_expr (v : Var) (e : Expr) (st : State) :
  keeps st (set_adjoint_expr v e st).
Proof.
  split; [|done]. repeat split; try done. intros x Hx. cbn.
  destruct (decide (vid v = x)) as [<-|Hne].
  - rewrite lookup_insert_eq. eauto.
  - by rewrite lookup_insert_ne.
Qed.

Lemma keeps_named (w : Var) (e : Expr) (st st' : State) :
  emitted st' = emitted st ++ [(w, e)] →
  adjoint_expr_to_var_ st' = (e, w) :: adjoint_expr_to_var_ st →
  (fresh st ≤ fresh st')%nat →
  adjoint_expr_map_ st' = adjoint_expr_map_ st →
  keeps st st'.
Proof.
  intros He Hm Hf Ha. split.
  - repeat split.
    + rewrite He. by apply prefix_app_r.
    + done.
    + by rewrite Ha.
    + intros k Hk. rewrite Hm. cbn. by destruct (Expr_eqb e k).
  - intros Hs k u. rewrite Hm, He, elem_of_cons, elem_of_app.
    intros [[= -> ->]|Hin].
    + right. apply list_elem_of_here.
    + left. by apply Hs.
Qed.

Lemma keeps_NameIncrement (increment : Expr) (st : State) :
  keeps st (NameIncrement increment st).2.
Proof.
  unfold NameIncrement.
  destruct (expr_to_var_lookup (adjoint_expr_to_var_ st) increment) as [w|];
    [apply keeps_refl|].
  cbn. eapply keeps_named; cbn; eauto.
Qed.

Lemma keeps_emit_adjoint (v : Var) (e : Expr) (st : State) :
  keeps st (emit_adjoint v e st).
Proof. eapply keeps_named; cbn; eauto. Qed.

Lemma keeps_AddToAdjoint (v : Var) (increment : Expr) (st st' : State) :
  AddToAdjoint v increment st = OK st' → keeps st st'.
Proof.
  unfold AddToAdjoint. destruct (adjoint_expr_map_ st !! vid v) as [old|].
  - intros (updated & _ & [= <-])%bind_OK. apply keeps_set_adjoint_expr.
  - intros [= <-]. apply keeps_set_adjoint_expr.
Qed.

Lemma keeps_UpdateExprMap (base increment : Expr) (st st' : State) :
  UpdateExprMap base increment st = OK st' → keeps st st'.
Proof.
  revert increment st st'.
  induction base as [v|bases IH|t i _|op args attrs _|vs|c] using Expr_nested_ind;
    intros increment st st'; try (intros [= <-]; apply keeps_refl).
  - rewrite UpdateExprMap_Var. intros Hadd.
    eapply keeps_trans; [apply keeps_NameIncrement|].
    by apply keeps_AddToAdjoint in Hadd.
  - rewrite UpdateExprMap_Tuple. generalize 0%nat. revert st.
    induction IH as [|b bases Hb _ IHl]; intros st i; cbn [UpdateExprMap_loop].
    + intros [= <-]. apply keeps_refl.
    + intros (inc_i & _ & (st1 & Hst1 & Hrest)%bind_OK)%bind_OK.
      eapply keeps_trans; [by apply (Hb _ _ _ Hst1)|]. by apply (IHl st1 (S i)).
Qed.

Lemma keeps_update_args (args partials : list Expr) (i : nat) (st st' : State) :
  update_args args partials i st = OK st' → keeps st st'.
Proof.
  revert i st. induction args as [|arg args IH]; intros i st; cbn [update_args].
  - intros [= <-]. apply keeps_refl.
  - intros (p & _ & (st1 & Hst1 & Hrest)%bind_OK)%bind_OK.
    eapply keeps_trans; [by apply (keeps_UpdateExprMap _ _ _ _ Hst1)|].
    by apply (IH (S i) st1).
Qed.

Lemma keeps_propagate (gradient_map : GradientMap) (v : Var) (value : Expr)
  (adjoint_var : Var) (e : Expr) (st st' : State) :
  propagate gradient_map v value adjoint_var e st = OK st' → keeps st st'.
Proof.
  destruct value as [b|fields|t k|op args attrs|vs|c]; try discriminate.
  - cbn [propagate]. apply keeps_AddToAdjoint.
  - cbn [propagate]. destruct e; try discriminate.
    destruct (bool_decide _); [|discriminate]. apply keeps_UpdateExprMap.
  - destruct t as [tv| | | | |]; try discriminate.
    intros (olds & news & _ & -> & _)%propagate_TupleGetItem.
    apply keeps_set_adjoint_expr.
  - cbn [propagate]. destruct (gradient_map op); [|discriminate].
    apply keeps_update_args.
Qed.

Lemma keeps_VisitBinding (gradient_map : GradientMap) (target : Var)
  (b : Binding) (st st' : State) :
  VisitBinding gradient_map target b st = OK st' → keeps st st'.
Proof.
  destruct b as [v value].
  intros [(_ & _ & ->)|(e & s & Hprop & Hs)]%VisitBinding_cases.
  - apply keeps_set_adjoint_var.
  - apply keeps_propagate in Hprop.
    eapply keeps_trans; [|exact Hprop].
    eapply keeps_trans; [|apply keeps_emit_adjoint].
    destruct Hs as [[-> _]|(-> & _)]; [apply keeps_refl|apply keeps_set_adjoint_expr].
Qed.

Lemma keeps_walk (gradient_map : GradientMap) (target : Var)
  (bindings : list Binding) (st st' : State) :
  walk gradient_map target bindings st = OK st' → keeps st st'.
Proof.
  revert st. induction bindings as [|b bindings IH]; intros st; cbn [walk].
  - intros [= <-]. apply keeps_refl.
  - intros (st1 & Hst1 & Hrest)%bind_OK.
    eapply keeps_trans; [by apply (keeps_VisitBinding _ _ _ _ _ Hst1)|]. by apply IH.
Qed.

Lemma memo_lookup_elem (memo : list (Expr * Var)) (e : Expr) (w : Var) :
  expr_to_var_lookup memo e = Some w → (e, w) ∈ memo.
Proof.
  induction memo as [|[k u] memo IH]; cbn; [discriminate|].
  destruct (Expr_eqb k e) eqn:Hk.
  - apply Expr_eqb_eq in Hk as ->. intros [= ->]. apply list_elem_of_here.
  - intros Hl. by apply list_elem_of_further, IH.
Qed.

(** X15: the loop keeps [adjoint_expr_to_var_] sound: if every entry of the
    map names an expression bound to that variable in the emitted block
    before the loop, the same holds after it.  So whatever variable
    [ReplaceExprByVar] puts in the place of an expression is bound to that
    very expression by a binding the pass has emitted. *)
Theorem walk_memo_sound (gradient_map : GradientMap) (target : Var)
  (bindings : list Binding) (st st' : State) :
  memo_sound st →
  walk gradient_map target bindings st = OK st' →
  memo_sound st'
  ∧ ∀ e w, ReplaceExprByVar (adjoint_expr_to_var_ st') e = EVar w →
           e = EVar w ∨ (w, e) ∈ emitted st'.
Proof.
  intros Hs Hwalk. apply keeps_walk in Hwalk as [_ Hk].
  specialize (Hk Hs). split; [done|].
  intros e w. unfold ReplaceExprByVar.
  destruct (expr_to_var_lookup (adjoint_expr_to_var_ st') e) as [u|] eqn:Hl.
  - intros [= ->]. right. by apply Hk, memo_lookup_elem.
  - intros ->. by left.
Qed.

Lemma walk_memo_sound_witness :
  ∃ st',
    walk draft_gradient_map Examples.gv0 (rev (body Examples.eg12)) init_state = OK st'
    ∧ memo_sound st'
    ∧ ∀ e w, ReplaceExprByVar (adjoint_expr_to_var_ st') e = EVar w →
             e = EVar w ∨ (w, e) ∈ emitted st'.
Proof.
  destruct (walk draft_gradient_map Examples.gv0 (rev (body Examples.eg12)) init_state)
    as [st'|err] eqn:Hwalk; [|vm_compute in Hwalk; discriminate].
  exists st'. split; [reflexivity|].
  apply (walk_memo_sound draft_gradient_map Examples.gv0 (rev (body Examples.eg12))
           init_state st').
  - intros e v Hin. by apply elem_of_nil in Hin.
  - exact Hwalk.
Defined.

(** X16: the loop only adds: the bindings emitted before it are a prefix of
    those emitted after it, no key is removed from [adjoint_expr_map_] or from
    [adjoint_expr_to_var_], and the counter of anonymous variables does not
    decrease. *)
Theorem walk_grows (gradient_map : GradientMap) (target : Var)
  (bindings : list Binding) (st st' : State) :
  walk gradient_map target bindings st = OK st' → grows st st'.
Proof. intros Hwalk. by apply keeps_walk in Hwalk as [Hg _]. Qed.

Lemma walk_grows_witness :
  ∃ st',
    walk draft_gradient_map Examples.gv0 (drop 1 (rev (body Examples.eg12)))
      Examples.eg12_at_lv2 = OK st'
    ∧ grows Examples.eg12_at_lv2 st'.
Proof.
  destruct (walk draft_gradient_map Examples.gv0 (drop 1 (rev (body Examples.eg12)))
              Examples.eg12_at_lv2) as [st'|err] eqn:Hwalk;
    [|vm_compute in Hwalk; discriminate].
  exists st'. split; [reflexivity|].
  by apply (walk_grows draft_gradient_map Examples.gv0
              (drop 1 (rev (body Examples.eg12)))).
Defined.

(** ** The loop and [adjoint_var_map_] *)

Lemma rmap_rmap {A B C} (f : A → B) (g : B → C) (r : Result A) :
  rmap g (rmap f r) = rmap (λ a, g (f a)) r.
Proof. by destruct r. Qed.

Lemma with_vars_id (st : State) : with_vars (adjoint_var_map_ st) st = st.
Proof. by destruct st. Qed.

Lemma NameIncrement_with_vars (m : gmap string Var) (increment : Expr) (st : State) :
  NameIncrement increment (with_vars m st)
  = ((NameIncrement increment st).1, with_vars m (NameIncrement increment st).2).
Proof.
  unfold NameIncrement. cbn [adjoint_expr_to_var_ with_vars].
  by destruct (expr_to_var_lookup (adjoint_expr_to_var_ st) increment).
Qed.

Lemma AddToAdjoint_with_vars (m : gmap string Var) (v : Var) (increment : Expr)
  (st : State) :
  AddToAdjoint v increment (with_vars m st)
  = rmap (with_vars m) (AddToAdjoint v increment st).
Proof.
  unfold AddToAdjoint. cbn [adjoint_expr_map_ adjoint_expr_to_var_ with_vars].
  destruct (adjoint_expr_map_ st !! vid v) as [old|]; [|done].
  by destruct (Addition (adjoint_expr_to_var_ st) old increment).
Qed.

Lemma UpdateExprMap_with_vars (m : gmap string Var) (base increment : Expr)
  (st : State) :
  UpdateExprMap base increment (with_vars m st)
  = rmap (with_vars m) (UpdateExprMap base increment st).
Proof.
  revert increment st.
  induction base as [v|bases IH|t i _|op args attrs _|vs|c] using Expr_nested_ind;
    intros increment st; try reflexivity.
  - rewrite !UpdateExprMap_Var, NameIncrement_with_vars. cbn [fst snd].
    apply AddToAdjoint_with_vars.
  - rewrite !UpdateExprMap_Tuple. generalize 0%nat. revert st.
    induction IH as [|b bases Hb _ IHl]; intros st i; cbn [UpdateExprMap_loop];
      [done|].
    destruct (match increment with Tuple incs => at_index incs i | _ => _ end)
      as [inc_i|]; cbn [bind]; [|done].
    rewrite Hb. destruct (UpdateExprMap b inc_i st) as [st1|]; cbn [bind rmap]; [|done].
    apply IHl.
Qed.

Lemma update_args_with_vars (m : gmap string Var) (args partials : list Expr)
  (i : nat) (st : State) :
  update_args args partials i (with_vars m st)
  = rmap (with_vars m) (update_args args partials i st).
Proof.
  revert i st. induction args as [|arg args IH]; intros i st; cbn [update_args];
    [done|].
  destruct (at_index partials i) as [p|]; cbn [bind]; [|done].
  rewrite UpdateExprMap_with_vars.
  destruct (UpdateExprMap arg p st) as [st1|]; cbn [bind rmap]; [|done]. apply IH.
Qed.

Lemma propagate_with_vars (gradient_map : GradientMap) (m : gmap string Var)
  (v : Var) (value : Expr) (adjoint_var : Var) (e : Expr) (st : State) :
  propagate gradient_map v value adjoint_var e (with_vars m st)
  = rmap (with_vars m) (propagate gradient_map v value adjoint_var e st).
Proof.
  destruct value as [b|fields|t k|op args attrs|vs|c]; try reflexivity.
  - cbn [propagate]. apply AddToAdjoint_with_vars.
  - cbn [propagate]. destruct e; try reflexivity.
    destruct (bool_decide _); [|reflexivity]. apply UpdateExprMap_with_vars.
  - destruct t as [tv| | | | |]; try reflexivity.
    cbn [propagate adjoint_expr_map_ with_vars].
    destruct (adjoint_expr_map_ st !! vid tv) as [old|] eqn:Hold; cbn [bind].
    + cbn [adjoint_expr_map_ adjoint_expr_to_var_ with_vars]. rewrite Hold. cbn [bind].
      by destruct (AdditionInTuple (adjoint_expr_to_var_ st) old k e).
    + destruct (BuildEmptyNestedTupleExpr (struct_info_ tv)) as [skeleton|];
        cbn [bind]; [|done].
      cbn [adjoint_expr_map_ adjoint_expr_to_var_ with_vars set_adjoint_expr].
      rewrite lookup_insert_eq. cbn [bind].
      by destruct (AdditionInTuple (adjoint_expr_to_var_ st) skeleton k e).
  - cbn [propagate]. destruct (gradient_map op); [|reflexivity].
    apply update_args_with_vars.
Qed.

Lemma VisitBinding_with_vars (gradient_map : GradientMap) (target : Var)
  (m : gmap string Var) (b : Binding) (st : State) :
  VisitBinding gradient_map target b (with_vars m st)
  = rmap (with_vars (<[vid b.1 := CreateAdjointVar b.1]> m))
      (VisitBinding gradient_map target b st).
Proof.
  destruct b as [v value]. cbn [fst].
  set (m' := <[vid v := CreateAdjointVar v]> m).
  destruct (adjoint_expr_map_ st !! vid v) as [e|] eqn:Hv.
  - rewrite !(VisitBinding_relevant _ _ _ _ e) by done.
    change (emit_adjoint v e (with_vars m st)) with (with_vars m' (emit_adjoint v e st)).
    apply propagate_with_vars.
  - destruct (decide (vid v = vid target)) as [Ht|Ht].
    + destruct (target_seed target) as [one|err] eqn:Hone.
      * rewrite !(VisitBinding_target _ _ _ _ one) by done.
        change (emit_adjoint v one (set_adjoint_expr v one (with_vars m st)))
          with (with_vars m' (emit_adjoint v one (set_adjoint_expr v one st))).
        apply propagate_with_vars.
      * unfold VisitBinding. cbn [adjoint_expr_map_ set_adjoint_var with_vars].
        by rewrite Hv, bool_decide_eq_true_2, Hone by done.
    + by rewrite !VisitBinding_skip by done.
Qed.

Lemma walk_with_vars (gradient_map : GradientMap) (target : Var)
  (bindings : list Binding) (m : gmap string Var) (st : State) :
  walk gradient_map target bindings (with_vars m st)
  = rmap (with_vars (visited_vars bindings m)) (walk gradient_map target bindings st).
Proof.
  revert m st. induction bindings as [|b bindings IH]; intros m st; cbn [walk];
    [done|].
  rewrite VisitBinding_with_vars.
  destruct (VisitBinding gradient_map target b st) as [st1|]; cbn [bind rmap]; [|done].
  apply IH.
Qed.

Lemma visited_vars_named (bindings : list Binding) (m : gmap string Var) (x : string) :
  (∃ b, b ∈ bindings ∧ vid b.1 = x)
  ∨ (∃ a, m !! x = Some a ∧ vid a = x +:+ "_adjoint") →
  ∃ a, visited_vars bindings m !! x = Some a ∧ vid a = x +:+ "_adjoint".
Proof.
  revert m. induction bindings as [|b bindings IH]; intros m Hin.
  - cbn. destruct Hin as [(b & Hb & _)|Ha]; [by apply elem_of_nil in Hb|done].
  - cbn [visited_vars foldl]. apply IH.
    destruct (decide (vid b.1 = x)) as [<-|Hne].
    + right. rewrite lookup_insert_eq. eauto.
    + rewrite lookup_insert_ne by done.
      destruct Hin as [(b' & [->|Hb']%elem_of_cons & Hx)|Ha]; eauto. done.
Qed.

(** X17: after the loop [adjoint_var_map_] is the map it was before with one
    entry written per visited binding, relevant or not, in visiting order;
    nothing else writes to it.  So every visited binding of [v] has an entry,
    a variable named [v_adjoint]. *)
Theorem walk_adjoint_var_map (gradient_map : GradientMap) (target : Var)
  (bindings : list Binding) (st st' : State) :
  walk gradient_map target bindings st = OK st' →
  adjoint_var_map_ st' = visited_vars bindings (adjoint_var_map_ st)
  ∧ ∀ b, b ∈ bindings →
         ∃ a, adjoint_var_map_ st' !! vid b.1 = Some a
              ∧ vid a = vid b.1 +:+ "_adjoint".
Proof.
  intros Hwalk.
  assert (Heq : adjoint_var_map_ st' = visited_vars bindings (adjoint_var_map_ st)).
  { rewrite <- (with_vars_id st), walk_with_vars in Hwalk.
    destruct (walk gradient_map target bindings st) as [s|]; [|discriminate].
    by injection Hwalk as <-. }
  split; [done|]. intros b Hb. rewrite Heq.
  apply visited_vars_named. eauto.
Qed.

Lemma walk_adjoint_var_map_witness :
  ∃ st',
    walk draft_gradient_map Examples.gv0 (rev (body Examples.eg12)) init_state = OK st'
    ∧ adjoint_var_map_ st'
      = visited_vars (rev (body Examples.eg12)) (adjoint_var_map_ init_state)
    ∧ ∀ b, b ∈ rev (body Examples.eg12) →
           ∃ a, adjoint_var_map_ st' !! vid b.1 = Some a
                ∧ vid a = vid b.1 +:+ "_adjoint".
Proof.
  destruct (walk draft_gradient_map Examples.gv0 (rev (body Examples.eg12)) init_state)
    as [st'|err] eqn:Hwalk; [|vm_compute in Hwalk; discriminate].
  exists st'. split; [reflexivity|].
  by apply (walk_adjoint_var_map draft_gradient_map Examples.gv0
              (rev (body Examples.eg12)) init_state).
Defined.

(** X18: what the loop emits and stores does not depend on the bindings
    that are irrelevant when they are visited: with such a binding left out
    of the list, the loop fails with the same error or ends with the same
    emitted bindings, the same [adjoint_expr_map_] and [adjoint_expr_to_var_]
    and the same counter; only [adjoint_var_map_] lacks the entry of the
    binding. *)
Theorem walk_without_irrelevant (gradient_map : GradientMap) (target : Var)
  (pre post : list Binding) (b : Binding) (st st1 : State) :
  walk gradient_map target pre st = OK st1 →
  adjoint_expr_map_ st1 !! vid b.1 = None →
  vid b.1 ≠ vid target →
  rmap (with_vars ∅) (walk gradient_map target (pre ++ b :: post) st)
  = rmap (with_vars ∅) (walk gradient_map target (pre ++ post) st).
Proof.
  intros Hpre Hb Ht. rewrite !walk_app, Hpre. cbn [bind walk].
  destruct b as [v value]. rewrite VisitBinding_skip by done. cbn [bind].
  change (set_adjoint_var v (CreateAdjointVar v) st1)
    with (with_vars (<[vid v := CreateAdjointVar v]> (adjoint_var_map_ st1)) st1).
  rewrite walk_with_vars, rmap_rmap.
  by destruct (walk gradient_map target post st1).
Qed.

Lemma walk_without_irrelevant_witness :
  rmap (with_vars ∅)
    (walk draft_gradient_map Examples.gv0
       ([(Examples.gv0, Examples.op1 "relax.sum" Examples.lv0)]
        ++ (Examples.lv2, Examples.op1 "relax.sum" Examples.lv1)
        :: [(Examples.lv1, Examples.op2 "relax.sub" Examples.x Examples.y);
            (Examples.lv0, Examples.op2 "relax.add" Examples.x Examples.y)])
       init_state)
  = rmap (with_vars ∅)
      (walk draft_gradient_map Examples.gv0
         ([(Examples.gv0, Examples.op1 "relax.sum" Examples.lv0)]
          ++ [(Examples.lv1, Examples.op2 "relax.sub" Examples.x Examples.y);
              (Examples.lv0, Examples.op2 "relax.add" Examples.x Examples.y)])
         init_state).
Proof.
  destruct (walk draft_gradient_map Examples.gv0
              [(Examples.gv0, Examples.op1 "relax.sum" Examples.lv0)] init_state)
    as [st1|err] eqn:Hpre; [|vm_compute in Hpre; discriminate].
  apply (walk_without_irrelevant draft_gradient_map Examples.gv0
           [(Examples.gv0, Examples.op1 "relax.sum" Examples.lv0)]
           [(Examples.lv1, Examples.op2 "relax.sub" Examples.x Examples.y);
            (Examples.lv0, Examples.op2 "relax.add" Examples.x Examples.y)]
           (Examples.lv2, Examples.op1 "relax.sum" Examples.lv1) init_state st1 Hpre).
  - revert Hpre. vm_compute. intros [= <-]. reflexivity.
  - vm_compute. discriminate.
Defined.

(** ** Naming of increments, once more *)

(** X19: an increment is named once.  When [UpdateExprMap] folds the same
    increment expression into a second variable, it finds the variable that
    named the increment the first time: the second update emits no binding,
    creates no variable and leaves [adjoint_expr_to_var_] as it is, and the
    first update has emitted at most one binding. *)
Theorem equal_increments_are_named_once (a b : Var) (increment : Expr)
  (st st1 st2 : State) :
  UpdateExprMap (EVar a) increment st = OK st1 →
  UpdateExprMap (EVar b) increment st1 = OK st2 →
  emitted st2 = emitted st1
  ∧ adjoint_expr_to_var_ st2 = adjoint_expr_to_var_ st1
  ∧ fresh st2 = fresh st1
  ∧ (length (emitted st1) ≤ S (length (emitted st)))%nat
  ∧ ∃ w, expr_to_var_lookup (adjoint_expr_to_var_ st2) increment = Some w
         ∧ (adjoint_expr_map_ st !! vid a = None →
            adjoint_expr_map_ st1 !! vid a = Some (EVar w)).
Proof.
  rewrite !UpdateExprMap_Var. intros H1 H2.
  destruct (NameIncrement_spec increment st) as (Hlook & Hmap & Hcase).
  destruct (NameIncrement increment st) as [w ns]. cbn [fst snd] in *.
  apply AddToAdjoint_spec in H1 as (new & -> & Hnew).
  assert (Hni : NameIncrement increment (set_adjoint_expr a new ns)
                = (w, set_adjoint_expr a new ns)).
  { unfold NameIncrement. cbn [adjoint_expr_to_var_ set_adjoint_expr].
    by rewrite Hlook. }
  rewrite Hni in H2. cbn [fst snd] in H2.
  apply AddToAdjoint_spec in H2 as (new' & -> & _).
  cbn [emitted adjoint_expr_to_var_ fresh set_adjoint_expr].
  repeat split; try done.
  - destruct (expr_to_var_lookup (adjoint_expr_to_var_ st) increment).
    + destruct Hcase as [_ ->]. lia.
    + destruct Hcase as (_ & -> & _). rewrite length_app. cbn. lia.
  - exists w. split; [done|]. intros Ha. rewrite Hmap, Ha in Hnew. subst new.
    cbn. by rewrite lookup_insert_eq.
Qed.

Lemma equal_increments_are_named_once_witness :
  ∃ st1 st2,
    UpdateExprMap (EVar Examples.x) (EVar Examples.lv0) init_state = OK st1
    ∧ UpdateExprMap (EVar Examples.y) (EVar Examples.lv0) st1 = OK st2
    ∧ emitted st2 = emitted st1
    ∧ adjoint_expr_to_var_ st2 = adjoint_expr_to_var_ st1
    ∧ fresh st2 = fresh st1
    ∧ (length (emitted st1) ≤ S (length (emitted init_state)))%nat
    ∧ ∃ w, expr_to_var_lookup (adjoint_expr_to_var_ st2) (EVar Examples.lv0) = Some w
           ∧ (adjoint_expr_map_ init_state !! vid Examples.x = None →
              adjoint_expr_map_ st1 !! vid Examples.x = Some (EVar w)).
Proof.
  destruct (UpdateExprMap (EVar Examples.x) (EVar Examples.lv0) init_state)
    as [st1|err] eqn:H1; [|vm_compute in H1; discriminate].
  destruct (UpdateExprMap (EVar Examples.y) (EVar Examples.lv0) st1)
    as [st2|err] eqn:H2.
  - exists st1, st2. split; [reflexivity|]. split; [exact H2|].
    exact (equal_increments_are_named_once Examples.x Examples.y
             (EVar Examples.lv0) init_state st1 st2 H1 H2).
  - exfalso. revert H2. injection H1 as <-. vm_compute. discriminate.
Defined.

(** ** Struct info of the gradient operators, on any call *)

(** X20: the struct info inferred for a call of one of the four gradient
    operators is the struct info of its second argument whatever the other
    arguments and the attributes are, and inference raises on a call with
    fewer than two arguments: the number of arguments is not compared with
    the registered number of inputs. *)
Theorem backward_infer_second_argument (GetStructInfo : Expr → StructInfo)
  (op : string) (args : list Expr) (attrs : Attrs) :
  is_Some (GradRegistry.num_inputs op) →
  Grad.infer GetStructInfo (Call op args attrs)
  = match args !! 1%nat with
    | Some data => OK (GetStructInfo data)
    | None => Fatal IndexOutOfRange
    end.
Proof.
  unfold GradRegistry.num_inputs, Grad.infer, Grad.FInferStructInfo.
  intros Hreg.
  repeat (case_bool_decide;
          [ unfold Grad.InferStructInfoNLLLossBackward,
              Grad.InferStructInfoMaxPool2DBackward,
              Grad.InferStructInfoAvgPool2DBackward,
              Grad.InferStructInfoTakeBackward, at_index;
            cbn [call_args]; by destruct (args !! 1%nat) |]).
  by destruct Hreg.
Qed.

Lemma backward_infer_second_argument_witness :
  Grad.infer (λ _, Examples.tensor [5; 5]%Z)
    (Call "relax.grad.take_backward" [EVar Examples.x] (TakeAttrs None))
  = Fatal IndexOutOfRange.
Proof.
  apply (backward_infer_second_argument (λ _, Examples.tensor [5; 5]%Z)
           "relax.grad.take_backward" [EVar Examples.x] (TakeAttrs None)).
  vm_compute. eauto.
Defined.

(** ** The rules of the draft *)

(** X21: with the two rules of the draft, the loop returns on every list of
    bindings that are [relax.sum] of a variable or [relax.add] of two
    variables, from any state, once the target is a tensor: [sum_grad] and
    [add_grad] return one partial per argument of such a call. *)
Theorem walk_draft_total (target : Var) (bindings : list Binding) (st : State) :
  is_OK (target_seed target) = true →
  Forall (λ b : Binding,
            (∃ a attrs, b.2 = Call "relax.sum" [EVar a] attrs)
            ∨ (∃ a c attrs, b.2 = Call "relax.add" [EVar a; EVar c] attrs))
         bindings →
  is_OK (walk draft_gradient_map target bindings st) = true.
Proof.
  intros Hseed Hall. revert st.
  induction Hall as [|[v value] bindings Hb _ IH]; intros st; cbn [walk]; [done|].
  assert (Hvisit : is_OK (VisitBinding draft_gradient_map target (v, value) st) = true).
  { assert (Hprop : ∀ e s, is_OK (propagate draft_gradient_map v value
                                    (CreateAdjointVar v) e s) = true).
    { intros e s. cbn [snd] in Hb.
      destruct Hb as [(a & attrs & ->)|(a & c & attrs & ->)].
      - apply (update_args_vars_total [a] _ 0 s). cbn. lia.
      - apply (update_args_vars_total [a; c] _ 0 s). cbn. lia. }
    destruct (adjoint_expr_map_ st !! vid v) as [e|] eqn:Hv.
    - rewrite (VisitBinding_relevant _ _ _ _ _ _ Hv). apply Hprop.
    - destruct (decide (vid v = vid target)) as [Ht|Ht].
      + destruct (target_seed target) as [one|] eqn:Hone; [|done].
        rewrite (VisitBinding_target _ _ _ _ _ _ Hv Ht Hone). apply Hprop.
      + by rewrite (VisitBinding_skip _ _ _ _ _ Hv Ht). }
  destruct (VisitBinding draft_gradient_map target (v, value) st) as [st1|]; [|done].
  cbn [bind]. apply IH.
Qed.

Lemma walk_draft_total_witness :
  is_OK (walk draft_gradient_map Examples.gv0 (rev (body Examples.eg11)) init_state)
  = true.
Proof.
  apply (walk_draft_total Examples.gv0 (rev (body Examples.eg11)) init_state).
  - reflexivity.
  - apply Forall_cons_2; [left; by exists Examples.lv0, NoAttrs|].
    apply Forall_cons_2; [right; by exists Examples.x, Examples.y, NoAttrs|].
    apply Forall_nil_2.
Defined.

